(** * Crossclimb: the word-ladder graph engine

    A shallow embedding of the word-ladder engine of the repository:

    - [src/utils/wordLadder.ts]: [differByOne], [generateNeighbors],
      [generateWordLadder];
    - the offline builder [preprocessDictionary] (pattern index, graph
      builder, connectivity groups);
    - the online resolver route: [loadDictionary], [findShortestPath],
      [areInSameGroup], [POST].

    JavaScript strings are modelled as [string]: on strings of ASCII code
    units ([asciiOnly]) the string functions below are the ones of
    JavaScript.  A [number] is a finite rational value, an infinity or
    [NaN].  Objects used as maps are modelled as [gmap], [Set]s that are only queried with [has] as [gset], and
    [Set]s that are enumerated as insertion-ordered lists.  The [while]
    loops over a work queue are modelled with a fuel argument; for every
    loop the fuel handed over by the enclosing function is proved
    sufficient. *)

From Stdlib Require Import Ascii String.
From Stdlib Require QArith.
From stdpp Require Import gmap strings list.

Local Open Scope nat_scope.
#[local] Set Warnings "-clear-no-such-hyp".

(** ** JavaScript strings *)

Module JS.

Definition isLowerLetter (c : ascii) : bool :=
  let n := nat_of_ascii c in (97 <=? n) && (n <=? 122).

Definition isUpperLetter (c : ascii) : bool :=
  let n := nat_of_ascii c in (65 <=? n) && (n <=? 90).

Definition upperChar (c : ascii) : ascii :=
  if isLowerLetter c then ascii_of_nat (nat_of_ascii c - 32) else c.

(** [s.toUpperCase()] *)
Fixpoint toUpperCase (s : string) : string :=
  match s with
  | EmptyString => EmptyString
  | String c s' => String (upperChar c) (toUpperCase s')
  end.

(** [s.slice(0, i)] *)
Fixpoint sliceTo (i : nat) (s : string) : string :=
  match i, s with
  | S i', String c s' => String c (sliceTo i' s')
  | _, _ => EmptyString
  end.

(** [s.slice(i)] *)
Fixpoint sliceFrom (i : nat) (s : string) : string :=
  match i, s with
  | S i', String c s' => sliceFrom i' s'
  | _, _ => s
  end.

(** [s.trim()] *)
Fixpoint trimStart (s : string) : string :=
  match s with
  | String c s' => if Ascii.is_space c then trimStart s' else s
  | EmptyString => EmptyString
  end.

Definition trim (s : string) : string :=
  String.rev (trimStart (String.rev (trimStart s))).

(** [/^[A-Z]+$/.test(s)] *)
Fixpoint allUpperLetters (s : string) : bool :=
  match s with
  | EmptyString => true
  | String c s' => isUpperLetter c && allUpperLetters s'
  end.

Definition testAZ (s : string) : bool :=
  match s with
  | EmptyString => false
  | _ => allUpperLetters s
  end.

(** [s[i]] *)
Definition charAt (s : string) (i : nat) : option ascii := String.get i s.

(** The strings all of whose code units are ASCII.  On these
    [String.prototype.toUpperCase] only turns [a-z] into [A-Z] and keeps
    the length, and [String.prototype.trim] only strips ASCII white space,
    as [toUpperCase] and [trim] above do; on other strings JavaScript
    upper-cases more characters and may change the length. *)
Fixpoint asciiOnly (s : string) : bool :=
  match s with
  | EmptyString => true
  | String c s' => (nat_of_ascii c <? 128) && asciiOnly s'
  end.

(** ** JavaScript numbers *)

(** A [number] as a comparison with an array length sees it: a finite
    value (every finite double is a rational number), an infinity or
    [NaN]. *)
Inductive number :=
| Finite (q : QArith_base.Q)
| PosInfinity
| NegInfinity
| NaN.

(** The number written as a non-negative integer literal. *)
Definition integer (n : nat) : number :=
  Finite (QArith_base.inject_Z (Z.of_nat n)).

(** [n >= x] for an array length [n]; a comparison with [NaN] is false. *)
Definition atLeast (n : nat) (x : number) : bool :=
  match x with
  | Finite q => QArith_base.Qle_bool q (QArith_base.inject_Z (Z.of_nat n))
  | PosInfinity => false
  | NegInfinity => true
  | NaN => false
  end.

(** [n <= x] for a count [n]. *)
Definition atMost (n : nat) (x : number) : bool :=
  match x with
  | Finite q => QArith_base.Qle_bool (QArith_base.inject_Z (Z.of_nat n)) q
  | PosInfinity => true
  | NegInfinity => false
  | NaN => false
  end.

End JS.

Import JS.

(** ** [src/utils/wordLadder.ts] *)

(** The [for] loop of [differByOne], with its counter [diffCount] and the
    early [return false]. *)
Fixpoint differByOne_loop (diffCount : nat) (str1 str2 : string) : bool :=
  match str1, str2 with
  | String a s1, String b s2 =>
      if decide (upperChar a = upperChar b)
      then differByOne_loop diffCount s1 s2
      else if decide (1 < S diffCount) then false
           else differByOne_loop (S diffCount) s1 s2
  | _, _ => bool_decide (diffCount = 1)
  end.

Definition differByOne (str1 str2 : string) : bool :=
  if decide (String.length str1 ≠ String.length str2) then false
  else differByOne_loop 0 str1 str2.

Definition letters : list ascii :=
  list_ascii_of_string "ABCDEFGHIJKLMNOPQRSTUVWXYZ".

(** [word.slice(0, i) + letter + word.slice(i + 1)] *)
Definition substitute (word : string) (i : nat) (letter : ascii) : string :=
  sliceTo i word +:+ String letter (sliceFrom (i + 1) word).

Definition generateNeighbors (word : string) : list string :=
  i ← seq 0 (String.length word);
  letter ← letters;
  let neighbor := substitute word i letter in
  if decide (toUpperCase neighbor ≠ toUpperCase word) then [neighbor] else [].

(** The work queue of the path searches: [{ word, path }] entries. *)
Abbreviation Queue := (list (string * list string)).

(** The body of [for (const neighbor of neighbors)] in [generateWordLadder]:
    [visited] and [queue] are the two mutable containers. *)
Definition ladderVisit (word : string) (path : list string)
    (st : gset string * Queue) (neighbor : string) : gset string * Queue :=
  let neighborUpper := toUpperCase neighbor in
  if bool_decide (neighborUpper ∉ st.1) && differByOne word neighbor
  then ({[neighborUpper]} ∪ st.1, st.2 ++ [(neighbor, path ++ [neighbor])])
  else st.

(** The [while (queue.length > 0)] loop of [generateWordLadder].  The outer
    [None] means that the fuel ran out, [Some None] is the [return null]
    after the loop. *)
Fixpoint generateWordLadder_loop (fuel : nat) (endWord : string)
    (maxSteps : number) (visited : gset string) (queue : Queue)
    : option (option (list string)) :=
  match fuel with
  | 0 => None
  | S fuel' =>
      match queue with
      | [] => Some None
      | (word, path) :: queue' =>
          if decide (toUpperCase word = toUpperCase endWord) then Some (Some path)
          else if atLeast (length path) maxSteps
          then generateWordLadder_loop fuel' endWord maxSteps visited queue'
          else
            let st := foldl (ladderVisit word path) (visited, queue')
                            (generateNeighbors word) in
            generateWordLadder_loop fuel' endWord maxSteps st.1 st.2
      end
  end.

(** Every key that can enter [visited] is the upper-cased start word with
    some positions overwritten by a letter: at most [27 ^ length] keys. *)
Definition ladderFuel (startWord : string) : nat :=
  S (S (27 ^ String.length startWord)).

(** The default value of the parameter: [maxSteps: number = 10]. *)
Definition defaultMaxSteps : number := integer 10.

Definition generateWordLadder (startWord endWord : string) (maxSteps : number)
    : option (list string) :=
  if decide (String.length startWord ≠ String.length endWord) then None
  else
    mjoin (generateWordLadder_loop (ladderFuel startWord) endWord maxSteps
             {[toUpperCase startWord]} [(startWord, [startWord])]).

(** ** The resolver route *)

Record DictionaryData := {
  words : list string;
  graph : gmap string (list string);
  groups : gmap nat (list string);
}.

(** What [fs.existsSync], [fs.readFileSync] and [JSON.parse] find for
    [data/words-<length>.json]. *)
Inductive FileStatus :=
| NoFile
| Unreadable
| Corrupt
| Valid (data : DictionaryData).

Definition FileSystem : Type := nat → FileStatus.

Inductive Event :=
| ExistsSync (wordLength : nat)
| ReadFileSync (wordLength : nat)
| ConsoleError (wordLength : nat)
| CallFindShortestPath (startWord endWord : string).

(** The module state: [dictionaryCache] and, as instrumentation, the
    sequence of observable calls. *)
Record World := {
  dictionaryCache : gmap nat DictionaryData;
  trace : list Event;
}.

Definition M (A : Type) : Type := World → A * World.

Definition ret {A} (a : A) : M A := λ w, (a, w).
Definition bind {A B} (m : M A) (k : A → M B) : M B :=
  λ w, let '(a, w') := m w in k a w'.
Definition emit (e : Event) : M unit :=
  λ w, (tt, {| dictionaryCache := dictionaryCache w; trace := trace w ++ [e] |}).
Definition cacheGet (wordLength : nat) : M (option DictionaryData) :=
  λ w, (dictionaryCache w !! wordLength, w).
Definition cacheSet (wordLength : nat) (data : DictionaryData) : M unit :=
  λ w, (tt, {| dictionaryCache := <[wordLength := data]> (dictionaryCache w);
               trace := trace w |}).

Global Instance M_ret : MRet M := @ret.
Global Instance M_bind : MBind M := λ A B k m, bind m k.

Definition loadDictionary (fs : FileSystem) (wordLength : nat)
    : M (option DictionaryData) :=
  cached ← cacheGet wordLength;
  match cached with
  | Some data => ret (Some data)
  | None =>
      emit (ExistsSync wordLength);;
      match fs wordLength with
      | NoFile => ret None
      | Valid data =>
          emit (ReadFileSync wordLength);;
          cacheSet wordLength data;;
          ret (Some data)
      | Unreadable | Corrupt =>
          emit (ReadFileSync wordLength);;
          emit (ConsoleError wordLength);;
          ret None
      end
  end.

(** The body of [for (const neighbor of neighbors)] in [findShortestPath]. *)
Definition pathVisit (path : list string)
    (st : gset string * Queue) (neighbor : string) : gset string * Queue :=
  if bool_decide (neighbor ∉ st.1)
  then ({[neighbor]} ∪ st.1, st.2 ++ [(neighbor, path ++ [neighbor])])
  else st.

(** [graph[word] || []] *)
Definition neighborsOf (graph : gmap string (list string)) (word : string)
    : list string :=
  default [] (graph !! word).

(** The [while] loop of [findShortestPath]; the outer [None] means that the
    fuel ran out. *)
Fixpoint findShortestPath_loop (fuel : nat) (graph : gmap string (list string))
    (endWord : string) (visited : gset string) (queue : Queue)
    : option (option (list string)) :=
  match fuel with
  | 0 => None
  | S fuel' =>
      match queue with
      | [] => Some None
      | (word, path) :: queue' =>
          if decide (word = endWord) then Some (Some path)
          else
            let st := foldl (pathVisit path) (visited, queue')
                            (neighborsOf graph word) in
            findShortestPath_loop fuel' graph endWord st.1 st.2
      end
  end.

(** All words that occur in some neighbour list: only these can be
    enqueued after the start word. *)
Definition targets (graph : gmap string (list string)) : list string :=
  mjoin (map_to_list graph).*2.

Definition pathFuel (graph : gmap string (list string)) : nat :=
  S (S (length (targets graph))).

Definition findShortestPath (startWord endWord : string)
    (graph : gmap string (list string)) : option (list string) :=
  let start := toUpperCase startWord in
  let end_ := toUpperCase endWord in
  if bool_decide (graph !! start = None) || bool_decide (graph !! end_ = None)
  then None
  else if decide (start = end_) then Some [start]
  else mjoin (findShortestPath_loop (pathFuel graph) graph end_
                {[start]} [(start, [start])]).

(** [Object.values(groups)] is walked until a group holds both words. *)
Definition areInSameGroup (word1 word2 : string)
    (groups : gmap nat (list string)) : bool :=
  let w1 := toUpperCase word1 in
  let w2 := toUpperCase word2 in
  existsb (λ group : list string,
             let groupSet : gset string := list_to_set group in
             bool_decide (w1 ∈ groupSet) && bool_decide (w2 ∈ groupSet))
          (map_to_list groups).*2.

Inductive ErrorMessage :=
| MissingWords
| LengthMismatch
| LengthOutOfRange
| DictionaryNotFound (wordLength : nat)
| WordNotInDictionary
| NotConnected
| NoPathFound.

Inductive Response :=
| Failure (error : ErrorMessage) (status : nat)
| Success (path : list string) (length : nat).

Record Request := {
  startWord : option string;
  endWord : option string;
}.

(** [!value] for a string-or-undefined body field. *)
Definition falsy (value : option string) : bool :=
  match value with
  | None | Some EmptyString => true
  | Some _ => false
  end.

(** The route handler.  The request body is taken as already parsed into
    two optional strings; with that, no call below can throw, so the
    [catch] branch of the handler (status 500) is never taken and has no
    counterpart here.  The call of [findShortestPath] is recorded in the
    trace. *)
Definition POST (fs : FileSystem) (request : Request) : M Response :=
  if falsy (startWord request) || falsy (endWord request)
  then ret (Failure MissingWords 400)
  else
    let start := trim (toUpperCase (default EmptyString (startWord request))) in
    let end_ := trim (toUpperCase (default EmptyString (endWord request))) in
    if decide (String.length start ≠ String.length end_)
    then ret (Failure LengthMismatch 400)
    else if decide (String.length start < 2 ∨ 15 < String.length start)
    then ret (Failure LengthOutOfRange 400)
    else
      dictionary ← loadDictionary fs (String.length start);
      match dictionary with
      | None => ret (Failure (DictionaryNotFound (String.length start)) 404)
      | Some dictionary =>
          if bool_decide (graph dictionary !! start = None)
             || bool_decide (graph dictionary !! end_ = None)
          then ret (Failure WordNotInDictionary 400)
          else if negb (areInSameGroup start end_ (groups dictionary))
          then ret (Failure NotConnected 400)
          else
            emit (CallFindShortestPath start end_);;
            match findShortestPath start end_ (graph dictionary)
                  return M Response with
            | None => ret (Failure NoPathFound 404)
            | Some path =>
                if decide (length path < 2)
                then ret (Failure NoPathFound 404)
                else ret (Success path (length path))
            end
      end.


(** What a [loadDictionary] call finds for a length: the cached entry or,
    failing that, the parsed file. *)
Definition stored (fs : FileSystem) (world : World) (wordLength : nat)
    : option DictionaryData :=
  match dictionaryCache world !! wordLength with
  | Some data => Some data
  | None => match fs wordLength with Valid data => Some data | _ => None end
  end.

(** ** The offline builder, [preprocessDictionary] *)

(** [lines.slice(1).map(line => line.trim().toUpperCase()).filter(...)] *)
Definition parseWords (lines : list string) : list string :=
  filter (λ word, 0 < String.length word ∧ testAZ word = true)
         ((λ line, toUpperCase (trim line)) <$> drop 1 lines).

(** [wordsByLength[len].push(word)], creating the bucket on first use. *)
Definition pushTo {K} `{Countable K} (key : K) (word : string)
    (m : gmap K (list string)) : gmap K (list string) :=
  <[key := default [] (m !! key) ++ [word]]> m.

Definition groupByLength (words : list string) : gmap nat (list string) :=
  foldl (λ wordsByLength word, pushTo (String.length word) word wordsByLength)
        ∅ words.

(** Step 1: the pattern index. *)
Definition buildPatternMap (wordList : list string) : gmap string (list string) :=
  foldl (λ patternMap word,
           foldl (λ patternMap i, pushTo (substitute word i "_") word patternMap)
                 patternMap (seq 0 (String.length word)))
        ∅ wordList.

(** [neighborSet.add(neighbor)] on a [Set] that is later enumerated with
    [Array.from]: insertion order is kept, a present element is not moved. *)
Definition setAdd (x : string) (s : list string) : list string :=
  if decide (x ∈ s) then s else s ++ [x].

(** Step 2, the body of the loop over [wordList]: the final [neighborSet]. *)
Definition collectNeighbors (patternMap : gmap string (list string))
    (word : string) : list string :=
  foldl (λ neighborSet i,
           foldl (λ neighborSet neighbor,
                    if decide (neighbor ≠ word) then setAdd neighbor neighborSet
                    else neighborSet)
                 neighborSet
                 (default [] (patternMap !! substitute word i "_")))
        [] (seq 0 (String.length word)).

Definition buildGraph (wordList : list string) : gmap string (list string) :=
  let patternMap := buildPatternMap wordList in
  foldl (λ graph word, <[word := collectNeighbors patternMap word]> graph)
        ∅ wordList.

(** The body of [for (const neighbor of graph[current] || [])]. *)
Definition groupVisit (st : gset string * list string) (neighbor : string)
    : gset string * list string :=
  if bool_decide (neighbor ∉ st.1)
  then ({[neighbor]} ∪ st.1, st.2 ++ [neighbor])
  else st.

(** The inner [while (queue.length > 0)] loop of the connectivity search;
    [None] means that the fuel ran out. *)
Fixpoint group_loop (fuel : nat) (graph : gmap string (list string))
    (visited : gset string) (queue group : list string)
    : option (gset string * list string) :=
  match fuel with
  | 0 => None
  | S fuel' =>
      match queue with
      | [] => Some (visited, group)
      | current :: queue' =>
          let st := foldl groupVisit (visited, queue') (neighborsOf graph current) in
          group_loop fuel' graph st.1 st.2 (group ++ [current])
      end
  end.

Record GroupSearch := {
  foundGroups : gmap nat (list string);
  visitedWords : gset string;
  groupId : nat;
}.

(** The body of the outer [for (const word of wordList)]. *)
Definition groupStep (graph : gmap string (list string))
    (search : option GroupSearch) (word : string) : option GroupSearch :=
  s ← search;
  if bool_decide (word ∈ visitedWords s) then Some s
  else
    '(visited, group) ← group_loop (pathFuel graph) graph
                           ({[word]} ∪ visitedWords s) [word] [];
    if decide (0 < length group)
    then Some {| foundGroups := <[groupId s := group]> (foundGroups s);
                 visitedWords := visited;
                 groupId := S (groupId s) |}
    else Some {| foundGroups := foundGroups s;
                 visitedWords := visited;
                 groupId := groupId s |}.

Definition findGroupsFrom (wordList : list string)
    (graph : gmap string (list string)) : option GroupSearch :=
  foldl (groupStep graph)
        (Some {| foundGroups := ∅; visitedWords := ∅; groupId := 0 |})
        wordList.

Definition findGroups (wordList : list string)
    (graph : gmap string (list string)) : option (gmap nat (list string)) :=
  foundGroups <$> findGroupsFrom wordList graph.

(** The artifact written for one word length. *)
Definition buildArtifact (wordList : list string) : option DictionaryData :=
  let graph := buildGraph wordList in
  groups ← findGroups wordList graph;
  Some {| words := wordList; graph := graph; groups := groups |}.

Definition lengthsToProcess : list nat := [2; 3; 4; 5; 6; 7; 8; 9; 10].

(** The files [data/words-<length>.json] after a run on the given lines of
    [dictionary.txt]. *)
Definition preprocessDictionary (lines : list string) : FileSystem :=
  let wordsByLength := groupByLength (parseWords lines) in
  λ length,
    if bool_decide (length ∈ lengthsToProcess) then
      match wordsByLength !! length with
      | None | Some [] => NoFile
      | Some wordList =>
          match buildArtifact wordList with
          | Some data => Valid data
          | None => NoFile
          end
      end
    else NoFile.

(** ** Fixtures *)

Definition fixtureWords : list string :=
  ["CORE"; "CORK"; "FORK"; "FORT"; "FOOT"; "PORT"; "JAZZ"].

Definition fixtureLines : list string :=
  "Collins Scrabble Words (2019). 279,496 words. Words only." :: fixtureWords.

(** The artifact for the four-letter fixture words and a store holding
    only it. *)
Definition fixtureData : DictionaryData :=
  {| words := fixtureWords;
     graph := buildGraph fixtureWords;
     groups := default ∅ (findGroups fixtureWords (buildGraph fixtureWords)) |}.

Definition fixtureFs : FileSystem :=
  λ wordLength, if decide (wordLength = 4) then Valid fixtureData else NoFile.

Definition emptyWorld : World := {| dictionaryCache := ∅; trace := [] |}.

Definition query (s e : string) : Request :=
  {| startWord := Some s; endWord := Some e |}.

(** ** Paths and distances in a graph *)

(** [edge graph u v]: [v] is listed among the neighbours of [u]. *)
Definition edge (graph : gmap string (list string)) (u v : string) : Prop :=
  v ∈ neighborsOf graph u.

(** Every two consecutive elements of a path are related. *)
Definition adjacentPairs (adj : string → string → Prop) (p : list string) : Prop :=
  ∀ i u v, p !! i = Some u → p !! S i = Some v → adj u v.

Definition isPath (adj : string → string → Prop) (s e : string)
    (p : list string) : Prop :=
  head p = Some s ∧ last p = Some e ∧ adjacentPairs adj p.

(** The same notion, built the way the searches extend a path
    ([[...path, neighbor]]). *)
Inductive ladder (adj : string → string → Prop) (s : string)
    : list string → string → Prop :=
| ladder_start : ladder adj s [s] s
| ladder_step p u v :
    ladder adj s p u → adj u v → ladder adj s (p ++ [v]) v.

(** Reachability along edges. *)
Definition connected (adj : string → string → Prop) (s e : string) : Prop :=
  ∃ p, isPath adj s e p.

(** Number of positions at which two strings of equal length differ. *)
Fixpoint hamming (a b : string) : nat :=
  match a, b with
  | String x a', String y b' =>
      (if decide (x = y) then 0 else 1) + hamming a' b'
  | _, _ => 0
  end.

(** The one-letter-substitution relation of the specification. *)
Definition oneLetterApart (a b : string) : Prop :=
  String.length a = String.length b ∧ hamming a b = 1.

(** ** A generic queue-based breadth-first search

    Both path searches of the repository are instances of this loop; it is
    used to prove their properties once. *)

Section BFS.
Context (key : string → string) (goal : string → bool)
        (limit : nat → bool) (nbrs : string → list string).

Definition bfsVisit (path : list string)
    (st : gset string * Queue) (n : string) : gset string * Queue :=
  if bool_decide (key n ∉ st.1)
  then ({[key n]} ∪ st.1, st.2 ++ [(n, path ++ [n])])
  else st.

Fixpoint bfs_loop (fuel : nat) (visited : gset string) (queue : Queue)
    : option (option (list string)) :=
  match fuel with
  | 0 => None
  | S fuel' =>
      match queue with
      | [] => Some None
      | (word, path) :: queue' =>
          if goal word then Some (Some path)
          else if limit (length path) then bfs_loop fuel' visited queue'
          else
            let st := foldl (bfsVisit path) (visited, queue') (nbrs word) in
            bfs_loop fuel' st.1 st.2
      end
  end.

Definition step (u v : string) : Prop := v ∈ nbrs u.

(** The queue holds paths of two consecutive lengths, shortest first. *)
Fixpoint queueOk (queue : Queue) : Prop :=
  match queue with
  | [] => True
  | (_, p) :: rest =>
      Forall (λ e, length p ≤ length e.2 ≤ S (length p)) rest ∧ queueOk rest
  end.

(** The loop invariant; [done] lists the entries already dequeued. *)
Record Inv (s : string) (done : Queue) (visited : gset string)
    (queue : Queue) : Prop := {
  inv_paths : ∀ w p, (w, p) ∈ done ++ queue → ladder step s p w;
  inv_visited : ∀ x, x ∈ visited → ∃ p, (x, p) ∈ done ++ queue;
  inv_start : (s, [s]) ∈ done ++ queue;
  inv_done_le : ∀ e e', e ∈ done → e' ∈ queue → length e.2 ≤ length e'.2;
  inv_queue : queueOk queue;
  inv_done_goal : ∀ w p, (w, p) ∈ done → goal w = false;
  inv_done_nbrs : ∀ u pu v,
    (u, pu) ∈ done → limit (length pu) = false → v ∈ nbrs u →
    ∃ pv, (v, pv) ∈ done ++ queue ∧ length pv ≤ S (length pu);
}.
End BFS.

(** ** More of [src/utils/wordLadder.ts]: [findWordLadderPath] *)

(** The body of [for (const dictWord of sameLengthWords)]. *)
Definition dictVisit (word : string) (path : list string)
    (st : gset string * Queue) (dictWord : string) : gset string * Queue :=
  let dictUpper := toUpperCase dictWord in
  if bool_decide (dictUpper ∉ st.1) && differByOne word dictUpper
  then ({[dictUpper]} ∪ st.1, st.2 ++ [(dictUpper, path ++ [dictUpper])])
  else st.

(** The [while] loop of [findWordLadderPath]; the outer [None] means that
    the fuel ran out. *)
Fixpoint findWordLadderPath_loop (fuel : nat) (endUpper : string)
    (sameLengthWords : list string) (visited : gset string) (queue : Queue)
    : option (option (list string)) :=
  match fuel with
  | 0 => None
  | S fuel' =>
      match queue with
      | [] => Some None
      | (word, path) :: queue' =>
          if decide (word = endUpper) then Some (Some path)
          else
            let st := foldl (dictVisit word path) (visited, queue')
                            sameLengthWords in
            findWordLadderPath_loop fuel' endUpper sameLengthWords st.1 st.2
      end
  end.

(** [dictionary] is the [Set] in the order [Array.from] lists it.  Only the
    start word and upper-cased dictionary words can be visited, which bounds
    the number of iterations. *)
Definition findWordLadderPath (startWord endWord : string)
    (dictionary : list string) : option (list string) :=
  if decide (String.length startWord ≠ String.length endWord) then None
  else
    let startUpper := toUpperCase startWord in
    let endUpper := toUpperCase endWord in
    let sameLengthWords :=
      filter (λ w, String.length w = String.length startWord) dictionary in
    mjoin (findWordLadderPath_loop (S (S (length sameLengthWords))) endUpper
             sameLengthWords {[startUpper]} [(startUpper, [startUpper])]).

(** ** [validateWordLadder] of the game generator *)

(** The [for] loop over [i < words.length - 1] with its early
    [return false]. *)
Fixpoint validateWordLadder_loop (words : list string) : bool :=
  match words with
  | a :: (b :: _) as rest =>
      if negb (differByOne a b) then false else validateWordLadder_loop rest
  | _ => true
  end.

Definition validateWordLadder (words : list string) : bool :=
  if decide (length words < 2) then false else validateWordLadder_loop words.

(** ** The puzzle state of the [useGame] hook and the manual editor *)

Module Puzzle.

(** An entry of [GameInfo.words].  The optional [startTime] and [endTime]
    of a [Game] are left out below: no function modelled here reads them. *)
Record WordInfo := {
  infoCorrect : string;
  infoHint : string;
}.

Record GameInfo := {
  infoTitle : string;
  infoAuthor : option string;
  infoWords : list WordInfo;
  infoEdgeWords : string * string;
  infoEdgeHint : string;
}.

(** An entry of [Game.words]. *)
Record Row := {
  correct : string;
  hint : string;
  current : string;
}.

Record Game := {
  title : string;
  author : option string;
  rows : list Row;
  edgeWords : string * string;
  currentEdgeWords : string * string;
  edgeHint : string;
}.

Inductive GameStatus := Idle | Error | Unsorted | Sorted | Solved.

(** [game.words.every((word) => word.correct.toUpperCase() ===
    word.current.toUpperCase())] *)
Definition isHalfSolved (game : Game) : bool :=
  forallb (λ word, bool_decide (toUpperCase (correct word)
                                = toUpperCase (current word)))
          (rows game).

(** [game.words.every((word, i) => i === game.words.length - 1 ||
    differByOne(word.current, game.words[i + 1].current))]; for an index
    below the last one the next row exists. *)
Definition isSorted (game : Game) : bool :=
  forallb (λ '(i, word),
             bool_decide (i = length (rows game) - 1)
             || match rows game !! (i + 1) with
                | Some next => differByOne (current word) (current next)
                | None => false
                end)
          (imap pair (rows game)).

(** [game.currentEdgeWords.every((word) => game.edgeWords.some((ew) =>
    ew.toUpperCase() === word.toUpperCase()))] *)
Definition edgesKnown (game : Game) : bool :=
  forallb (λ word,
             existsb (λ ew, bool_decide (toUpperCase ew = toUpperCase word))
                     [(edgeWords game).1; (edgeWords game).2])
          [(currentEdgeWords game).1; (currentEdgeWords game).2].

(** The [gameStatus] memo.  The outer [None] is the [TypeError] that
    [game.words[0].current] raises when there is no row and the edge test
    has passed. *)
Definition gameStatus (game : option Game) : option GameStatus :=
  match game with
  | None => Some Idle
  | Some game =>
      if negb (isHalfSolved game) then Some Error
      else if negb (isSorted game) then Some Unsorted
      else if negb (edgesKnown game) then Some Sorted
      else
        match head (rows game), last (rows game) with
        | Some first, Some final =>
            if differByOne (currentEdgeWords game).1 (current first)
               && differByOne (currentEdgeWords game).2 (current final)
            then Some Solved else Some Sorted
        | _, _ => None
        end
  end.

(** The array surgery of [reorderWord]: [splice(fromIndex, 1)] then
    [splice(toIndex, 0, removed)].  When [fromIndex] is past the end nothing
    is removed and [undefined] is what gets inserted; an insertion index
    past the end inserts at the end. *)
Definition reorder {A} (undefined : A) (fromIndex toIndex : nat)
    (words : list A) : list A :=
  let removed := default undefined (words !! fromIndex) in
  let newWords := delete fromIndex words in
  take toIndex newWords ++ removed :: drop toIndex newWords.

(** The state of the manual editor. *)
Record Editor := {
  editTitle : string;
  editAuthor : string;
  editEdgeWords : string * string;
  editEdgeHint : string;
  editMiddleWords : list (string * string);
}.

Inductive EditorError :=
| TitleMissing
| EdgeWordsMissing
| EdgeLengthsDiffer
| MiddleWordsMissing
| LengthsDiffer
| HintsMissing
| EdgeHintMissing
| InvalidLadder.

(** [!s] for a string. *)
Definition emptyString (s : string) : bool :=
  match s with EmptyString => true | _ => false end.

(** [handleCreate] of the manual editor: the error it sets or the game it
    hands to [onGameCreated]. *)
Definition handleCreate (e : Editor) : EditorError + GameInfo :=
  if emptyString (trim (editTitle e)) then inl TitleMissing
  else if emptyString (editEdgeWords e).1 || emptyString (editEdgeWords e).2
  then inl EdgeWordsMissing
  else if decide (String.length (editEdgeWords e).1
                  ≠ String.length (editEdgeWords e).2)
  then inl EdgeLengthsDiffer
  else
    let allMiddleWords :=
      filter (λ w, emptyString w = false)
             ((λ m, toUpperCase m.1) <$> editMiddleWords e) in
    if decide (length allMiddleWords = 0) then inl MiddleWordsMissing
    else
      let wordLength := String.length (editEdgeWords e).1 in
      if negb (forallb (λ w, bool_decide (String.length w = wordLength))
                       allMiddleWords)
         || negb (bool_decide (String.length (editEdgeWords e).2 = wordLength))
      then inl LengthsDiffer
      else if negb (forallb (λ '(w, m), negb (emptyString (trim m.2)))
                            (zip allMiddleWords (editMiddleWords e)))
      then inl HintsMissing
      else if emptyString (trim (editEdgeHint e)) then inl EdgeHintMissing
      else
        let allWords :=
          toUpperCase (editEdgeWords e).1
          :: allMiddleWords ++ [toUpperCase (editEdgeWords e).2] in
        if negb (validateWordLadder allWords) then inl InvalidLadder
        else
          inr {| infoTitle := trim (editTitle e);
                 infoAuthor := if emptyString (trim (editAuthor e)) then None
                               else Some (trim (editAuthor e));
                 infoWords :=
                   zip_with (λ word m, {| infoCorrect := word;
                                          infoHint := m.2 |})
                            allMiddleWords (editMiddleWords e);
                 infoEdgeWords := (toUpperCase (editEdgeWords e).1,
                                   toUpperCase (editEdgeWords e).2);
                 infoEdgeHint := editEdgeHint e |}.

(** The board of a game in which every row shows its word, in the order of
    the [GameInfo], and both edge rows show their edge word. *)
Definition filledIn (info : GameInfo) : Game :=
  {| title := infoTitle info;
     author := infoAuthor info;
     rows := (λ w, {| correct := infoCorrect w; hint := infoHint w;
                      current := infoCorrect w |}) <$> infoWords info;
     edgeWords := infoEdgeWords info;
     currentEdgeWords := infoEdgeWords info;
     edgeHint := infoEdgeHint info |}.

End Puzzle.

(** ** Auxiliary notions used in the proofs *)

(** A string that upper-casing leaves alone, character by character. *)
Fixpoint upperFixed (s : string) : Prop :=
  match s with
  | EmptyString => True
  | String c s' => upperChar c = c ∧ upperFixed s'
  end.

(** The answer of the route once the artifact is loaded and holds both
    words. *)
Definition answer (start end_ : string) (d : DictionaryData) : Response :=
  if areInSameGroup start end_ (groups d) then
    match findShortestPath start end_ (graph d) with
    | Some path =>
        if decide (length path < 2) then Failure NoPathFound 404
        else Success path (length path)
    | None => Failure NoPathFound 404
    end
  else Failure NotConnected 400.

(** The invariant of the outer loop of the connectivity search, for a
    symmetric graph [g] whose neighbour lists stay inside the word list
    [W]. *)
Record GroupsOk (g : gmap string (list string)) (W : list string)
    (s : GroupSearch) : Prop := {
  ok_visited : ∀ x, x ∈ visitedWords s
                    ↔ ∃ k grp, foundGroups s !! k = Some grp ∧ x ∈ grp;
  ok_keys : ∀ k, groupId s ≤ k → foundGroups s !! k = None;
  ok_disjoint : ∀ k1 k2 g1 g2 x,
    foundGroups s !! k1 = Some g1 → foundGroups s !! k2 = Some g2 →
    x ∈ g1 → x ∈ g2 → k1 = k2;
  ok_NoDup : ∀ k grp, foundGroups s !! k = Some grp → NoDup grp;
  ok_rooted : ∀ k grp, foundGroups s !! k = Some grp →
                       ∃ r, ∀ x, x ∈ grp → rtc (edge g) r x;
  ok_closed : ∀ k grp u v,
    foundGroups s !! k = Some grp → u ∈ grp → edge g u v → v ∈ grp;
  ok_words : ∀ x, x ∈ visitedWords s → x ∈ W;
}.

(** The neighbours that the loop of [generateWordLadder] actually tries. *)
Definition ladderNeighbors (word : string) : list string :=
  filter (λ neighbor, differByOne word neighbor = true) (generateNeighbors word).

(** All keys that [visited] can ever hold for a given start word. *)
Fixpoint universe (s : string) : list string :=
  match s with
  | EmptyString => [EmptyString]
  | String c s' =>
      x ← upperChar c :: letters; u ← universe s'; [String x u]
  end.

(** The words that can enter the queue: the start word with some positions
    overwritten by letters. *)
Fixpoint overwritten (s w : string) : Prop :=
  match s, w with
  | EmptyString, EmptyString => True
  | String c s', String x w' => (x = c ∨ x ∈ letters) ∧ overwritten s' w'
  | _, _ => False
  end.

(** The candidates that the loop of [findWordLadderPath] enqueues from a
    word, and the step relation they define on a dictionary. *)
Definition dictNeighbors (sameLengthWords : list string) (word : string)
    : list string :=
  filter (λ dictUpper, differByOne word dictUpper = true)
         (toUpperCase <$> sameLengthWords).

Definition dictStep (dictionary : list string) (u v : string) : Prop :=
  differByOne u v = true ∧ v ∈ toUpperCase <$> dictionary.

(** The numbering of the groups: the keys are the numbers below [groupId]
    and no group is empty. *)
Definition numbered (s : GroupSearch) : Prop :=
  (∀ k, is_Some (foundGroups s !! k) ↔ k < groupId s)
  ∧ ∀ k grp, foundGroups s !! k = Some grp → grp ≠ [].

(** ** Editor fixtures *)

(** CAT, COT, COG, DOG with a hint on every row. *)
Definition fixtureEditor : Puzzle.Editor :=
  {| Puzzle.editTitle := " Pets ";
     Puzzle.editAuthor := "";
     Puzzle.editEdgeWords := ("cat", "dog");
     Puzzle.editEdgeHint := "Household animals";
     Puzzle.editMiddleWords := [("COT", "SMALL BED"); ("COG", "GEAR TOOTH")] |}.

(** The same ladder after a blank row was left at the top and the last row
    has no hint. *)
Definition fixtureShiftedEditor : Puzzle.Editor :=
  {| Puzzle.editTitle := "Pets";
     Puzzle.editAuthor := "me";
     Puzzle.editEdgeWords := ("CAT", "DOG");
     Puzzle.editEdgeHint := "Household animals";
     Puzzle.editMiddleWords :=
       [("", "SMALL BED"); ("COT", "GEAR TOOTH"); ("COG", "")] |}.

(** * Proofs *)

Ltac unfold_M :=
  unfold mbind, M_bind, bind, mret, M_ret, ret, emit, cacheGet, cacheSet in *;
  simpl in *.


(** ** Paths *)

Lemma ladder_nonempty adj s p e : ladder adj s p e → 1 ≤ length p.
Proof. destruct 1; rewrite ?length_app; simpl; lia. Qed.

Lemma ladder_head adj s p e : ladder adj s p e → head p = Some s.
Proof.
  induction 1 as [|p u v Hp IH Huv]; [done|].
  destruct p; [discriminate|done].
Qed.

Lemma ladder_last adj s p e : ladder adj s p e → last p = Some e.
Proof. destruct 1; [done|]. by rewrite last_snoc. Qed.

Lemma ladder_pairs adj s p e : ladder adj s p e → adjacentPairs adj p.
Proof.
  induction 1 as [|p u v Hp IH Huv]; intros i a b Ha Hb.
  - destruct i; simplify_eq/=.
  - pose proof (ladder_last _ _ _ _ Hp) as Hlast.
    rewrite last_lookup in Hlast.
    destruct (decide (S i < length p)) as [Hlt|Hge].
    + rewrite lookup_app_l in Ha by lia. rewrite lookup_app_l in Hb by lia.
      eauto.
    + assert (S i = length p) as Hi.
      { apply lookup_lt_Some in Hb. rewrite length_app in Hb. simpl in Hb. lia. }
      rewrite lookup_app_l in Ha by lia.
      rewrite Hi, lookup_app_r in Hb by lia.
      replace (length p - length p) with 0 in Hb by lia.
      replace (pred (length p)) with i in Hlast by lia.
      simplify_eq/=. done.
Qed.

Lemma ladder_isPath adj s p e : ladder adj s p e → isPath adj s e p.
Proof.
  intros H. split_and!; eauto using ladder_head, ladder_last, ladder_pairs.
Qed.

Lemma isPath_ladder adj s p e : isPath adj s e p → ladder adj s p e.
Proof.
  revert e. induction p as [|v p IH] using rev_ind; intros e (Hh & Hl & Hp).
  - discriminate.
  - rewrite last_snoc in Hl. simplify_eq.
    destruct p as [|a p _] using rev_ind.
    + simpl in Hh. simplify_eq. constructor.
    + apply ladder_step with a.
      * apply IH. split_and!.
        -- destruct (p ++ [a]) eqn:E; [by destruct p|done].
        -- by rewrite last_snoc.
        -- intros i x y Hx Hy. apply (Hp i).
           ++ apply lookup_app_l_Some. done.
           ++ apply lookup_app_l_Some. done.
      * apply (Hp (length p)).
        -- rewrite lookup_app_l by (rewrite length_app; simpl; lia).
           by rewrite list_lookup_middle.
        -- replace (S (length p)) with (length (p ++ [a]))
             by (rewrite length_app; simpl; lia).
           by rewrite list_lookup_middle.
Qed.

Lemma ladder_mono (adj adj' : string → string → Prop) s p e :
  (∀ u v, adj u v → adj' u v) → ladder adj s p e → ladder adj' s p e.
Proof. intros H. induction 1; econstructor; eauto. Qed.

(** ** The generic breadth-first search *)

Lemma size_difference_visit (U V : gset string) (k : string) :
  k ∉ V → k ∈ U → size (U ∖ V) = S (size (U ∖ ({[k]} ∪ V))).
Proof.
  intros HV HU.
  assert (U ∖ V = {[k]} ∪ U ∖ ({[k]} ∪ V)) as ->.
  { apply set_eq. intros x. destruct (decide (x = k)); set_solver. }
  rewrite size_union by set_solver. rewrite size_singleton. lia.
Qed.

Section BFS_facts.
Context (key : string → string) (goal : string → bool)
        (limit : nat → bool) (nbrs : string → list string).
Context (Node : string → Prop).
Hypothesis Node_step : ∀ u v, Node u → v ∈ nbrs u → Node v.

Local Abbreviation visit := (bfsVisit key).
Local Abbreviation loop := (bfs_loop key goal limit nbrs).
Local Abbreviation adj := (step nbrs).

(** *** Termination *)

Lemma visit_fold_measure (U : gset string) path ns : ∀ V Q,
  (∀ n, n ∈ ns → key n ∈ U) →
  length (foldl (visit path) (V, Q) ns).2
    + size (U ∖ (foldl (visit path) (V, Q) ns).1)
  = length Q + size (U ∖ V).
Proof.
  induction ns as [|n ns IH]; intros V Q HU; [done|].
  simpl. unfold bfsVisit at 2 4. simpl.
  case_bool_decide as Hn.
  - rewrite IH by (intros; apply HU; set_solver).
    rewrite length_app. simpl.
    rewrite (size_difference_visit U V (key n)); [lia|done|].
    apply HU. set_solver.
  - apply IH. intros; apply HU; set_solver.
Qed.

Lemma visit_fold_words path ns : ∀ V Q e,
  e ∈ (foldl (visit path) (V, Q) ns).2 → e ∈ Q ∨ e.1 ∈ ns.
Proof.
  induction ns as [|n ns IH]; intros V Q e He; [by left|].
  simpl in He. unfold bfsVisit at 2 in He. simpl in He.
  case_bool_decide.
  - apply IH in He as [He|He]; [|set_solver].
    apply elem_of_app in He as [He|He]; [by left|].
    right. apply list_elem_of_singleton in He as ->. set_solver.
  - apply IH in He. set_solver.
Qed.

Lemma loop_fuel (U : gset string) :
  (∀ u v, Node u → v ∈ nbrs u → key v ∈ U) →
  ∀ fuel visited queue,
    (∀ e, e ∈ queue → Node e.1) →
    length queue + size (U ∖ visited) < fuel →
    is_Some (loop fuel visited queue).
Proof.
  intros HU. induction fuel as [|fuel IH]; intros visited queue HN Hlt; [lia|].
  destruct queue as [|[word path] queue]; simpl; [by eexists|].
  destruct (goal word); [by eexists|].
  assert (Node word) as Hw by (apply (HN (word, path)); set_solver).
  destruct (limit (length path)).
  - apply IH; [intros; apply HN; set_solver|]. simpl in Hlt. lia.
  - apply IH.
    + intros e He. apply visit_fold_words in He as [He|He].
      * apply HN. set_solver.
      * eauto.
    + rewrite (visit_fold_measure U) by eauto. simpl in Hlt. lia.
Qed.

(** *** Soundness and minimality *)

Hypothesis key_Node : ∀ u, Node u → key u = u.

Lemma visit_fold_spec path ns : ∀ V Q,
  (∀ n, n ∈ ns → key n = n) →
  ∃ V' news,
    foldl (visit path) (V, Q) ns = (V', Q ++ news)
    ∧ (∀ x, x ∈ V' ↔ x ∈ V ∨ x ∈ ns)
    ∧ (∀ e, e ∈ news → ∃ n, n ∈ ns ∧ e = (n, path ++ [n]))
    ∧ (∀ n, n ∈ ns → n ∈ V ∨ (n, path ++ [n]) ∈ news).
Proof.
  induction ns as [|n ns IH]; intros V Q Hkey.
  - exists V, []. rewrite app_nil_r. set_solver.
  - simpl. unfold bfsVisit at 2. simpl.
    rewrite (Hkey n) by set_solver.
    case_bool_decide as Hn.
    + destruct (IH ({[n]} ∪ V) (Q ++ [(n, path ++ [n])]))
        as (V' & news & Heq & HV & Hnews & Hns); [set_solver|].
      exists V', ((n, path ++ [n]) :: news). split_and!.
      * etrans; [exact Heq|]. by rewrite <-app_assoc.
      * set_solver.
      * intros e [->|He]%elem_of_cons; [set_solver|].
        destruct (Hnews e He) as (m & ? & ?). set_solver.
      * intros m [->|Hm]%elem_of_cons; [set_solver|].
        destruct (Hns m Hm); set_solver.
    + destruct (IH V Q) as (V' & news & Heq & HV & Hnews & Hns); [set_solver|].
      exists V', news. split_and!; [done|set_solver| |].
      * intros e He. destruct (Hnews e He) as (m & ? & ?). set_solver.
      * intros m [->|Hm]%elem_of_cons; [by left|]. eauto.
Qed.

Lemma queueOk_same m (news : Queue) :
  Forall (λ e, length e.2 = m) news → queueOk news.
Proof.
  induction 1 as [|[w p] news Hp Hnews IH]; simpl; [done|].
  split; [|done]. simpl in Hp. eapply Forall_impl; [exact Hnews|].
  simpl. intros; lia.
Qed.

Lemma queueOk_app m (rest news : Queue) :
  queueOk rest →
  Forall (λ e, m ≤ length e.2 ≤ S m) rest →
  Forall (λ e, length e.2 = S m) news →
  queueOk (rest ++ news).
Proof.
  intros Hok Hrest Hnews. induction rest as [|[w p] rest IH]; simpl.
  - eauto using queueOk_same.
  - destruct Hok as [Hall Hok]. inversion Hrest as [|? ? Hp Hrest']; subst.
    simpl in Hp. split; [|by apply IH].
    apply Forall_app. split; [done|].
    eapply Forall_impl; [exact Hnews|]. simpl. intros; lia.
Qed.
Lemma Inv_init s : Inv goal limit nbrs s [] {[s]} [(s, [s])].
Proof.
  split; simpl.
  - intros w p [= -> ->]%list_elem_of_singleton. constructor.
  - intros x ->%elem_of_singleton. exists [s]. set_solver.
  - set_solver.
  - intros e e' He. by apply elem_of_nil in He.
  - split; [constructor|done].
  - intros w p He. by apply elem_of_nil in He.
  - intros u pu v He. by apply elem_of_nil in He.
Qed.

Lemma Inv_head_le s done V w p rest e :
  Inv goal limit nbrs s done V ((w, p) :: rest) →
  e ∈ (w, p) :: rest → length p ≤ length e.2 ≤ S (length p).
Proof.
  intros HI [->|He]%elem_of_cons; simpl; [lia|].
  destruct (inv_queue _ _ _ _ _ _ _ HI) as [Hall _].
  rewrite Forall_forall in Hall. by apply Hall.
Qed.

Lemma Inv_skip s done V w p rest :
  Inv goal limit nbrs s done V ((w, p) :: rest) →
  goal w = false → limit (length p) = true →
  Inv goal limit nbrs s (done ++ [(w, p)]) V rest.
Proof.
  intros HI Hg Hl. destruct HI as [Hp Hv Hs Hle Hq Hdg Hdn].
  split.
  - intros w' p' He. apply Hp. rewrite <-app_assoc in He. done.
  - intros x Hx. destruct (Hv x Hx) as [p' ?]. exists p'.
    rewrite <-app_assoc. done.
  - rewrite <-app_assoc. done.
  - intros e e' [He| ->%list_elem_of_singleton]%elem_of_app He'.
    + apply Hle; set_solver.
    + destruct Hq as [Hall _]. rewrite Forall_forall in Hall.
      simpl. apply (Hall e' He').
  - apply Hq.
  - intros w' p' [He|[= -> ->]%list_elem_of_singleton]%elem_of_app; eauto.
  - intros u pu v [He|[= -> ->]%list_elem_of_singleton]%elem_of_app Hlim Hv'.
    + destruct (Hdn u pu v He Hlim Hv') as (pv & ? & ?). exists pv.
      rewrite <-app_assoc. done.
    + congruence.
Qed.

Lemma Inv_expand s done V w p rest V' news :
  Inv goal limit nbrs s done V ((w, p) :: rest) →
  goal w = false →
  (∀ x, x ∈ V' ↔ x ∈ V ∨ x ∈ nbrs w) →
  (∀ e, e ∈ news → ∃ n, n ∈ nbrs w ∧ e = (n, p ++ [n])) →
  (∀ n, n ∈ nbrs w → n ∈ V ∨ (n, p ++ [n]) ∈ news) →
  Inv goal limit nbrs s (done ++ [(w, p)]) V' (rest ++ news).
Proof.
  intros HI Hg HV' Hnews Hns.
  pose proof (λ e, Inv_head_le s done V w p rest e HI) as Hhead.
  destruct HI as [Hp Hv Hs Hle Hq Hdg Hdn].
  assert (∀ e, e ∈ done ++ (w, p) :: rest →
               e ∈ (done ++ [(w, p)]) ++ rest ++ news) as Hsub.
  { intros e. rewrite <-app_assoc. simpl. rewrite !elem_of_app, !elem_of_cons.
    rewrite elem_of_app. tauto. }
  assert (Forall (λ e : string * list string, length e.2 = S (length p)) news)
    as Hlen.
  { apply Forall_forall. intros e He.
    destruct (Hnews e He) as (n & _ & ->). simpl.
    rewrite length_app. simpl. lia. }
  split.
  - intros w' p' He. rewrite <-app_assoc in He. simpl in He.
    rewrite elem_of_app, elem_of_cons, elem_of_app in He.
    destruct He as [He|[He|[He|He]]].
    + apply Hp. set_solver.
    + apply Hp. set_solver.
    + apply Hp. set_solver.
    + destruct (Hnews _ He) as (n & Hn & [= -> ->]).
      apply ladder_step with w; [|done]. apply Hp. set_solver.
  - intros x Hx. apply HV' in Hx as [Hx|Hx].
    + destruct (Hv x Hx) as [p' ?]. exists p'. by apply Hsub.
    + destruct (Hns x Hx) as [Hx'|Hx'].
      * destruct (Hv x Hx') as [p' ?]. exists p'. by apply Hsub.
      * exists (p ++ [x]). set_solver.
  - by apply Hsub.
  - intros e e' He He'.
    assert (length e.2 ≤ length p) as He1.
    { apply elem_of_app in He as [He| ->%list_elem_of_singleton]; [|done].
      apply (Hle e (w, p)); set_solver. }
    apply elem_of_app in He' as [He'|He'].
    + specialize (Hhead e' ltac:(set_solver)). lia.
    + rewrite Forall_forall in Hlen. rewrite (Hlen e' He'). lia.
  - destruct Hq as [Hall Hq]. apply queueOk_app with (length p); done.
  - intros w' p' [He|[= -> ->]%list_elem_of_singleton]%elem_of_app; eauto.
  - intros u pu v [He|[= -> ->]%list_elem_of_singleton]%elem_of_app Hlim Hv'.
    + destruct (Hdn u pu v He Hlim Hv') as (pv & ? & ?). exists pv.
      split; [by apply Hsub|done].
    + destruct (Hns v Hv') as [Hx|Hx].
      * destruct (Hv v Hx) as [pv Hpv]. exists pv.
        split; [by apply Hsub|].
        apply elem_of_app in Hpv as [Hpv|Hpv].
        -- specialize (Hle (v, pv) (w, p) Hpv ltac:(set_solver)).
           simpl in Hle. lia.
        -- specialize (Hhead (v, pv) Hpv). simpl in Hhead. lia.
      * exists (p ++ [v]). split; [set_solver|].
        rewrite length_app. simpl. lia.
Qed.

(** Every word that a short enough path reaches has already left the
    queue. *)
Lemma Inv_walk s done V Q B q t :
  Inv goal limit nbrs s done V Q →
  (∀ e, e ∈ Q → B ≤ length e.2) →
  ladder adj s q t →
  length q < B →
  (∀ k, 1 ≤ k < length q → limit k = false) →
  ∃ p, (t, p) ∈ done ∧ length p ≤ length q.
Proof.
  intros HI HB Hq. induction Hq as [|q u v Hq IH Huv]; intros Hlt Hlim.
  - exists [s]. split; [|done].
    pose proof (inv_start _ _ _ _ _ _ _ HI) as Hs.
    apply elem_of_app in Hs as [Hs|Hs]; [done|].
    apply HB in Hs. simpl in *. lia.
  - rewrite length_app in Hlt, Hlim. simpl in Hlt, Hlim.
    destruct IH as (pu & Hpu & Hle); [lia|intros; apply Hlim; lia|].
    pose proof (ladder_nonempty _ _ _ _
                  (inv_paths _ _ _ _ _ _ _ HI u pu ltac:(set_solver))) as Hne.
    destruct (inv_done_nbrs _ _ _ _ _ _ _ HI u pu v Hpu) as (pv & Hpv & Hlen);
      [apply Hlim; lia|done|].
    exists pv. rewrite length_app. simpl. split; [|lia].
    apply elem_of_app in Hpv as [Hpv|Hpv]; [done|].
    apply HB in Hpv. simpl in Hpv. lia.
Qed.

(** What the loop returns, whenever it returns: a path to a goal word
    that no admissible path undercuts; and [null] only when no admissible
    path to a goal word exists. *)
Lemma loop_correct s : ∀ fuel done V Q r,
  Inv goal limit nbrs s done V Q →
  (∀ e, e ∈ Q → Node e.1) →
  loop fuel V Q = Some r →
  ∀ q t, ladder adj s q t → goal t = true →
         (∀ k, 1 ≤ k < length q → limit k = false) →
         ∃ p w, r = Some p ∧ goal w = true ∧ ladder adj s p w
                ∧ length p ≤ length q.
Proof.
  induction fuel as [|fuel IH]; intros dn V Q r HI HN Hr q t Hq Ht Hlim;
    [done|].
  destruct Q as [|[w p] rest]; simpl in Hr.
  - simplify_eq.
    destruct (Inv_walk s dn V [] (S (length q)) q t) as (p & Hp & _);
      [done|intros e He; by apply elem_of_nil in He|done|lia|done|].
    rewrite (inv_done_goal _ _ _ _ _ _ _ HI t p Hp) in Ht. done.
  - destruct (goal w) eqn:Hg.
    + simplify_eq. exists p, w. split_and!; [done|done| |].
      * apply (inv_paths _ _ _ _ _ _ _ HI). set_solver.
      * destruct (decide (length p ≤ length q)) as [|Hgt]; [done|].
        destruct (Inv_walk s dn V ((w, p) :: rest) (length p) q t)
          as (p' & Hp' & _); [done| |done|lia|done|].
        { intros e He. apply (Inv_head_le _ _ _ _ _ _ _ HI) in He. lia. }
        rewrite (inv_done_goal _ _ _ _ _ _ _ HI t p' Hp') in Ht. done.
    + assert (Node w) as Hw by (apply (HN (w, p)); set_solver).
      destruct (limit (length p)) eqn:Hl.
      * eapply (IH (dn ++ [(w, p)])); eauto using Inv_skip.
        intros e He. apply HN. set_solver.
      * destruct (visit_fold_spec p (nbrs w) V rest)
          as (V' & news & Heq & HV' & Hnews & Hns); [by eauto|].
        rewrite Heq in Hr. simpl in Hr.
        eapply (IH (dn ++ [(w, p)])); eauto using Inv_expand.
        intros e [He|He]%elem_of_app; [apply HN; set_solver|].
        destruct (Hnews e He) as (n & Hn & ->). simpl. eauto.
Qed.

(** What the loop returns is a path to a goal word, whether or not a
    goal word is reachable. *)
Lemma loop_sound s : ∀ fuel done V Q p,
  Inv goal limit nbrs s done V Q →
  (∀ e, e ∈ Q → Node e.1) →
  loop fuel V Q = Some (Some p) →
  ∃ w, goal w = true ∧ ladder adj s p w.
Proof.
  induction fuel as [|fuel IH]; intros dn V Q p HI HN Hr; [done|].
  destruct Q as [|[w p'] rest]; simpl in Hr; [done|].
  destruct (goal w) eqn:Hg.
  - simplify_eq. exists w. split; [done|].
    apply (inv_paths _ _ _ _ _ _ _ HI). set_solver.
  - assert (Node w) as Hw by (apply (HN (w, p')); set_solver).
    destruct (limit (length p')) eqn:Hl.
    + eapply (IH (dn ++ [(w, p')])); eauto using Inv_skip.
      intros e He. apply HN. set_solver.
    + destruct (visit_fold_spec p' (nbrs w) V rest)
        as (V' & news & Heq & HV' & Hnews & Hns); [by eauto|].
      rewrite Heq in Hr. simpl in Hr.
      eapply (IH (dn ++ [(w, p')])); eauto using Inv_expand.
      intros e [He|He]%elem_of_app; [apply HN; set_solver|].
      destruct (Hnews e He) as (n & Hn & ->). simpl. eauto.
Qed.
End BFS_facts.

(** A path of more than one word only enters the queue as the extension
    of a path that the step bound let through. *)
Lemma bfs_loop_extended key goal limit nbrs :
  ∀ fuel V (Q : Queue) p,
    (∀ e, e ∈ Q → length e.2 ≤ 1 ∨ limit (length e.2 - 1) = false) →
    bfs_loop key goal limit nbrs fuel V Q = Some (Some p) →
    length p ≤ 1 ∨ limit (length p - 1) = false.
Proof.
  induction fuel as [|fuel IH]; intros V Q p HQ Hr; [done|].
  destruct Q as [|[w p'] rest]; simpl in Hr; [done|].
  destruct (goal w).
  - simplify_eq. apply (HQ (w, p)). set_solver.
  - destruct (limit (length p')) eqn:Hl.
    + eapply IH; [|exact Hr]. intros; apply HQ; set_solver.
    + eapply IH; [|exact Hr]. clear Hr.
      assert (∀ ns V (Q : Queue),
                (∀ e, e ∈ Q → length e.2 ≤ 1
                              ∨ limit (length e.2 - 1) = false) →
                ∀ e, e ∈ (foldl (bfsVisit key p') (V, Q) ns).2 →
                     length e.2 ≤ 1 ∨ limit (length e.2 - 1) = false)
        as Hfold.
      { induction ns as [|n ns IHns]; intros V' Q' HQ' e He; [by apply HQ'|].
        simpl in He. unfold bfsVisit at 2 in He. simpl in He.
        case_bool_decide; [|by eapply IHns].
        eapply IHns; [|exact He].
        intros e' [He'| ->%list_elem_of_singleton]%elem_of_app; [by apply HQ'|].
        right. simpl. rewrite length_app. simpl.
        by replace (length p' + 1 - 1) with (length p') by lia. }
      apply Hfold. intros; apply HQ; set_solver.
Qed.

(** ** Strings *)

Lemma upperChar_idem c : upperChar (upperChar c) = upperChar c.
Proof. destruct c as [[] [] [] [] [] [] [] []]; reflexivity. Qed.

Lemma upperChar_letter c : isUpperLetter c = true → upperChar c = c.
Proof. destruct c as [[] [] [] [] [] [] [] []]; (reflexivity || discriminate). Qed.

Lemma toUpperCase_idem s : toUpperCase (toUpperCase s) = toUpperCase s.
Proof. induction s; simpl; [done|]. by rewrite upperChar_idem, IHs. Qed.

Lemma toUpperCase_length s : String.length (toUpperCase s) = String.length s.
Proof. induction s; simpl; congruence. Qed.

Lemma toUpperCase_letters s : allUpperLetters s = true → toUpperCase s = s.
Proof.
  induction s as [|c s IH]; simpl; [done|].
  intros [Hc Hs]%andb_true_iff. by rewrite upperChar_letter, IH.
Qed.

Lemma upperFixed_toUpperCase s : upperFixed (toUpperCase s).
Proof. induction s; simpl; auto using upperChar_idem. Qed.

Lemma upperFixed_eq s : upperFixed s → toUpperCase s = s.
Proof. induction s; simpl; [done|]. intros [-> ?]. f_equal. auto. Qed.

Lemma upperFixed_trimStart s : upperFixed s → upperFixed (trimStart s).
Proof.
  induction s as [|c s IH]; simpl; [done|]. intros [Hc Hs].
  destruct (Ascii.is_space c); simpl; auto.
Qed.

Lemma upperFixed_rev_app s1 : ∀ s2,
  upperFixed s1 → upperFixed s2 → upperFixed (String.rev_app s1 s2).
Proof.
  induction s1 as [|c s1 IH]; simpl; [done|]. intros s2 [Hc Hs1] Hs2.
  apply IH; simpl; auto.
Qed.

Lemma upperFixed_trim s : upperFixed s → upperFixed (trim s).
Proof.
  intros Hs. unfold trim, String.rev.
  apply upperFixed_rev_app; [|done].
  apply upperFixed_trimStart, upperFixed_rev_app; [|done].
  by apply upperFixed_trimStart.
Qed.

(** The words the route works with are already upper-case. *)
Lemma normalised_upper s : toUpperCase (trim (toUpperCase s)) = trim (toUpperCase s).
Proof. apply upperFixed_eq, upperFixed_trim, upperFixed_toUpperCase. Qed.

(** ** [findShortestPath] *)

Lemma size_list_to_set_le (l : list string) :
  size (list_to_set l : gset string) ≤ length l.
Proof.
  induction l as [|x l IH].
  - rewrite list_to_set_nil, size_empty. done.
  - rewrite list_to_set_cons, size_union_alt, size_singleton.
    pose proof (subseteq_size (list_to_set l ∖ {[x]})
                  (list_to_set l : gset string) ltac:(set_solver)).
    simpl. lia.
Qed.

Lemma elem_of_targets graph u v : edge graph u v → v ∈ targets graph.
Proof.
  unfold edge, neighborsOf, targets. intros Hv.
  destruct (graph !! u) as [l|] eqn:Hu; simpl in Hv; [|by apply elem_of_nil in Hv].
  apply list_elem_of_join. exists l. split; [done|].
  apply list_elem_of_fmap. exists (u, l). split; [done|].
  by apply elem_of_map_to_list.
Qed.

Lemma findShortestPath_loop_bfs graph e : ∀ fuel V Q,
  findShortestPath_loop fuel graph e V Q
  = bfs_loop id (λ w, bool_decide (w = e)) (λ _, false) (neighborsOf graph)
             fuel V Q.
Proof.
  induction fuel as [|fuel IH]; intros V Q; simpl; [done|].
  destruct Q as [|[w p] rest]; [done|].
  destruct (decide (w = e)) as [->|Hne].
  - by rewrite bool_decide_eq_true_2.
  - rewrite bool_decide_eq_false_2 by done. apply IH.
Qed.

(** The fuel handed to the loop by [findShortestPath] never runs out. *)
Lemma findShortestPath_loop_total graph s e :
  is_Some (findShortestPath_loop (pathFuel graph) graph e {[s]} [(s, [s])]).
Proof.
  rewrite findShortestPath_loop_bfs.
  apply (loop_fuel id _ _ (neighborsOf graph) (λ _, True) ltac:(done)
           (list_to_set (targets graph))).
  - intros u v _ Hv. apply elem_of_list_to_set. by eapply elem_of_targets.
  - done.
  - simpl. unfold pathFuel.
    pose proof (size_list_to_set_le (targets graph)).
    pose proof (subseteq_size (list_to_set (targets graph) ∖ {[s]})
                  (list_to_set (targets graph) : gset string) ltac:(set_solver)).
    lia.
Qed.

Lemma findShortestPath_loop_sound graph s e p :
  mjoin (findShortestPath_loop (pathFuel graph) graph e {[s]} [(s, [s])]) = Some p →
  ladder (edge graph) s p e.
Proof.
  intros Hr.
  destruct (findShortestPath_loop _ _ _ _ _) as [r|] eqn:Hloop; [|done].
  simpl in Hr. subst r. rewrite findShortestPath_loop_bfs in Hloop.
  destruct (loop_sound id _ _ (neighborsOf graph) (λ _, True)
              (λ _ _ _ _, I) (λ _ _, eq_refl) s _ [] _ _ p
              (Inv_init id _ _ _ (λ _, True) (λ _ _ _ _, I) (λ _ _, eq_refl) s)
              (λ _ _, I) Hloop) as (w & Hw & Hp).
  by apply bool_decide_eq_true in Hw as ->.
Qed.

Lemma findShortestPath_loop_minimal graph s e q :
  ladder (edge graph) s q e →
  ∃ p, mjoin (findShortestPath_loop (pathFuel graph) graph e {[s]} [(s, [s])])
       = Some p
       ∧ ladder (edge graph) s p e ∧ length p ≤ length q.
Proof.
  intros Hq.
  destruct (findShortestPath_loop_total graph s e) as [r Hloop].
  rewrite Hloop. simpl.
  rewrite findShortestPath_loop_bfs in Hloop.
  destruct (loop_correct id _ _ (neighborsOf graph) (λ _, True)
              (λ _ _ _ _, I) (λ _ _, eq_refl) s _ [] _ _ r
              (Inv_init id _ _ _ (λ _, True) (λ _ _ _ _, I) (λ _ _, eq_refl) s)
              (λ _ _, I) Hloop q e Hq)
    as (p & w & -> & Hw & Hp & Hle); [by apply bool_decide_eq_true|done|].
  apply bool_decide_eq_true in Hw as ->. eauto.
Qed.

Lemma findShortestPath_sound sw ew graph p :
  findShortestPath sw ew graph = Some p →
  isPath (edge graph) (toUpperCase sw) (toUpperCase ew) p.
Proof.
  unfold findShortestPath.
  destruct (_ || _); [done|].
  destruct (decide _) as [Heq|Hne].
  - intros [= <-]. rewrite <-Heq. apply ladder_isPath. constructor.
  - intros Hr. by apply ladder_isPath, findShortestPath_loop_sound.
Qed.

(** ** The route *)

Lemma loadDictionary_result fs n w :
  (loadDictionary fs n w).1 = stored fs w n.
Proof.
  unfold loadDictionary, stored. unfold_M.
  destruct (dictionaryCache w !! n); [done|]. by destruct (fs n).
Qed.

(** The events of a [loadDictionary] call never include a path search. *)
Lemma loadDictionary_trace fs n w :
  ∃ evs, trace (loadDictionary fs n w).2 = trace w ++ evs
         ∧ ∀ s e, CallFindShortestPath s e ∉ evs.
Proof.
  unfold loadDictionary. unfold_M.
  destruct (dictionaryCache w !! n); simpl.
  - exists []. rewrite app_nil_r. split; [done|]. set_solver.
  - destruct (fs n); simpl; rewrite <-?app_assoc; simpl;
      eexists; (split; [reflexivity|]); set_solver.
Qed.

(** What a successful answer of the route tells. *)
Lemma POST_Success fs req w p n :
  (POST fs req w).1 = Success p n →
  ∃ sw ew d,
    startWord req = Some sw ∧ endWord req = Some ew
    ∧ stored fs w (String.length (trim (toUpperCase sw))) = Some d
    ∧ findShortestPath (trim (toUpperCase sw)) (trim (toUpperCase ew)) (graph d)
      = Some p
    ∧ areInSameGroup (trim (toUpperCase sw)) (trim (toUpperCase ew)) (groups d)
      = true
    ∧ 2 ≤ length p ∧ n = length p.
Proof.
  unfold POST. destruct req as [osw oew]; cbn [startWord endWord].
  destruct (falsy osw) eqn:Hs; [intros H; discriminate H|].
  destruct (falsy oew) eqn:He; [intros H; discriminate H|].
  cbn [orb].
  destruct osw as [sw|]; [|discriminate]. destruct oew as [ew|]; [|discriminate].
  cbn [from_option id].
  destruct (decide _); [intros H; discriminate H|].
  destruct (decide _); [intros H; discriminate H|].
  unfold mbind, M_bind, bind.
  pose proof (loadDictionary_result fs (String.length (trim (toUpperCase sw))) w)
    as Hload.
  destruct (loadDictionary fs _ w) as [[d|] w']; simpl in Hload;
    [|intros H; discriminate H].
  destruct (_ || _); [intros H; discriminate H|].
  destruct (areInSameGroup _ _ _) eqn:Hgrp; cbn [negb];
    [|intros H; discriminate H].
  destruct (emit _ w') as [[] w''].
  destruct (findShortestPath _ _ _) as [path|] eqn:Hpath;
    [|intros H; discriminate H].
  destruct (decide _) as [|Hlen]; [intros H; discriminate H|].
  intros [= -> <-]. exists sw, ew, d. split_and!; auto. lia.
Qed.

Lemma POST_loaded fs sw ew w d :
  let start := trim (toUpperCase sw) in
  let end_ := trim (toUpperCase ew) in
  String.length start = String.length end_ →
  2 ≤ String.length start ≤ 15 →
  stored fs w (String.length start) = Some d →
  is_Some (graph d !! start) → is_Some (graph d !! end_) →
  (POST fs (query sw ew) w).1 = answer start end_ d
  ∧ ∃ evs, trace (POST fs (query sw ew) w).2 = trace w ++ evs
           ∧ (areInSameGroup start end_ (groups d) = false →
              ∀ s e, CallFindShortestPath s e ∉ evs).
Proof.
  intros start end_. subst start end_. intros Hlen Hrange Hd [ns Hs] [ne He].
  assert (falsy (Some sw) = false) as Hfs.
  { destruct sw; [|done]. vm_compute in Hrange. lia. }
  assert (falsy (Some ew) = false) as Hfe.
  { destruct ew; [|done]. rewrite Hlen in Hrange. vm_compute in Hrange. lia. }
  unfold POST, query, answer. cbn [startWord endWord from_option id].
  rewrite Hfs, Hfe. cbn [orb].
  destruct (decide _) as [Hne|_]; [done|].
  destruct (decide _) as [Hout|_]; [lia|].
  unfold mbind, M_bind, bind.
  pose proof (loadDictionary_result fs
                (String.length (trim (toUpperCase sw))) w) as Hload.
  destruct (loadDictionary_trace fs (String.length (trim (toUpperCase sw))) w)
    as (evs & Htr & Hevs).
  rewrite Hd in Hload.
  destruct (loadDictionary fs _ w) as [r w']. simpl in Hload, Htr. subst r.
  rewrite Hs, He. rewrite !bool_decide_eq_false_2 by done. cbn [orb].
  destruct (areInSameGroup _ _ (groups d)); cbn [negb].
  - unfold emit.
    destruct (findShortestPath _ _ _) as [path|]; [destruct (decide _)|];
      (split; [done|]); simpl; rewrite Htr, <-app_assoc;
      eexists; (split; [reflexivity|done]).
  - split; [done|]. exists evs. split; [done|]. auto.
Qed.

Lemma areInSameGroup_spec w1 w2 (groups : gmap nat (list string)) :
  areInSameGroup w1 w2 groups = true
  ↔ ∃ k g, groups !! k = Some g ∧ toUpperCase w1 ∈ g ∧ toUpperCase w2 ∈ g.
Proof.
  unfold areInSameGroup. rewrite existsb_exists. split.
  - intros (g & Hg & Hb). apply list_elem_of_In, list_elem_of_fmap in Hg
      as ([k g'] & -> & Hkg). apply elem_of_map_to_list in Hkg.
    apply andb_true_iff in Hb as [H1 H2].
    apply bool_decide_eq_true, elem_of_list_to_set in H1.
    apply bool_decide_eq_true, elem_of_list_to_set in H2.
    exists k, g'. done.
  - intros (k & g & Hkg & H1 & H2). exists g. split.
    + apply list_elem_of_In, list_elem_of_fmap. exists (k, g).
      split; [done|]. by apply elem_of_map_to_list.
    + apply andb_true_iff.
      split; apply bool_decide_eq_true, elem_of_list_to_set; done.
Qed.

(** ** Claims about the resolver *)

(** C1 (amended).  For a normalised word [w] that is a key of the loaded
    artifact's graph, [findShortestPath w w] is the one-element path [[w]];
    the route, however, rejects every path of fewer than two words, so a
    query with start = end = [w] never succeeds, and when [w] has a
    supported length and lies in a group it is answered with the
    no-path-found failure (status 404). *)
Theorem identity_query_rejected fs world d w :
  trim (toUpperCase w) = w →
  stored fs world (String.length w) = Some d →
  is_Some (graph d !! w) →
  findShortestPath w w (graph d) = Some [w]
  ∧ (∀ p n, (POST fs (query w w) world).1 ≠ Success p n)
  ∧ (2 ≤ String.length w ≤ 15 → areInSameGroup w w (groups d) = true →
     (POST fs (query w w) world).1 = Failure NoPathFound 404).
Proof.
  intros Hnorm Hd [ns Hw].
  assert (toUpperCase w = w) as Hup.
  { rewrite <-Hnorm. apply normalised_upper. }
  assert (findShortestPath w w (graph d) = Some [w]) as Hpath.
  { unfold findShortestPath. rewrite Hup, Hw.
    rewrite bool_decide_eq_false_2 by done. simpl.
    by destruct (decide (w = w)). }
  split_and!; [done| |].
  - intros p n Hsucc.
    apply POST_Success in Hsucc
      as (sw & ew & d' & [= <-] & [= <-] & Hd' & Hp & _ & Hlen & _).
    rewrite Hnorm in Hd', Hp. simplify_eq. simpl in Hlen. lia.
  - intros Hrange Hgrp.
    destruct (POST_loaded fs w w world d) as [Hans _];
      rewrite ?Hnorm; eauto.
    cbv zeta in Hans. rewrite !Hnorm in Hans.
    rewrite Hans. unfold answer. rewrite Hgrp, Hpath. done.
Qed.

Lemma identity_query_rejected_witness :
  findShortestPath "CORE" "CORE" (graph fixtureData) = Some ["CORE"]
  ∧ (POST fixtureFs (query "CORE" "CORE") emptyWorld).1 = Failure NoPathFound 404.
Proof.
  destruct (identity_query_rejected fixtureFs emptyWorld fixtureData "CORE")
    as (H1 & _ & H3).
  - vm_compute. reflexivity.
  - vm_compute. reflexivity.
  - eexists. vm_compute. reflexivity.
  - split; [exact H1|]. apply H3.
    + vm_compute. lia.
    + vm_compute. reflexivity.
Defined.

(** C1, as stated, fails: [CORE] is in the fixture artifact, yet the query
    [CORE] to [CORE] does not succeed with the path [[CORE]]. *)
Lemma identity_query_counterexample :
  "CORE" ∈ words fixtureData
  ∧ stored fixtureFs emptyWorld 4 = Some fixtureData
  ∧ (POST fixtureFs (query "CORE" "CORE") emptyWorld).1 ≠ Success ["CORE"] 1.
Proof.
  split_and!.
  - vm_compute. set_solver.
  - vm_compute. reflexivity.
  - vm_compute. discriminate.
Qed.

Lemma findShortestPath_complete sw ew graph q :
  is_Some (graph !! toUpperCase sw) → is_Some (graph !! toUpperCase ew) →
  isPath (edge graph) (toUpperCase sw) (toUpperCase ew) q →
  ∃ p, findShortestPath sw ew graph = Some p
       ∧ isPath (edge graph) (toUpperCase sw) (toUpperCase ew) p
       ∧ length p ≤ length q.
Proof.
  intros [ns Hs] [ne He] Hq%isPath_ladder.
  unfold findShortestPath. rewrite Hs, He.
  rewrite !bool_decide_eq_false_2 by done. cbn [orb].
  destruct (decide _) as [Heq|Hne].
  - exists [toUpperCase sw]. split; [done|split].
    + rewrite <-Heq. apply ladder_isPath. constructor.
    + apply ladder_nonempty in Hq. simpl. lia.
  - destruct (findShortestPath_loop_minimal graph _ _ q Hq) as (p & Hp & Hl & Hle).
    exists p. split; [done|split; [|done]]. by apply ladder_isPath.
Qed.

(** C2.  When both normalised words are keys of the loaded artifact's graph
    and some path joins them, [findShortestPath] returns a path between them
    that no path in the adjacency mapping undercuts in number of words, and
    it is the only path the route can answer with. *)
Theorem shortest_path_minimal fs world d sw ew :
  let start := trim (toUpperCase sw) in
  let end_ := trim (toUpperCase ew) in
  stored fs world (String.length start) = Some d →
  is_Some (graph d !! start) → is_Some (graph d !! end_) →
  connected (edge (graph d)) start end_ →
  ∃ p, findShortestPath start end_ (graph d) = Some p
       ∧ isPath (edge (graph d)) start end_ p
       ∧ (∀ q, isPath (edge (graph d)) start end_ q → length p ≤ length q)
       ∧ (∀ p' n, (POST fs (query sw ew) world).1 = Success p' n → p' = p).
Proof.
  intros start end_ Hd Hs He [q0 Hq0].
  pose proof (normalised_upper sw) as Hus. pose proof (normalised_upper ew) as Hue.
  fold start in Hus. fold end_ in Hue.
  destruct (findShortestPath_complete start end_ (graph d) q0)
    as (p & Hp & Hpath & _); rewrite ?Hus, ?Hue; try done.
  rewrite Hus, Hue in Hpath.
  exists p. split; [done|split; [done|split]].
  - intros q Hq.
    destruct (findShortestPath_complete start end_ (graph d) q)
      as (p2 & Hp2 & _ & Hle); rewrite ?Hus, ?Hue; try done.
    by simplify_eq.
  - intros p' n Hsucc.
    apply POST_Success in Hsucc
      as (sw' & ew' & d' & [= <-] & [= <-] & Hd' & Hp' & _).
    fold start end_ in Hd', Hp'. by simplify_eq.
Qed.

Lemma shortest_path_minimal_witness :
  ∃ p, findShortestPath "CORE" "FOOT" (graph fixtureData) = Some p
       ∧ isPath (edge (graph fixtureData)) "CORE" "FOOT" p
       ∧ (∀ q, isPath (edge (graph fixtureData)) "CORE" "FOOT" q →
               length p ≤ length q)
       ∧ (∀ p' n, (POST fixtureFs (query "core" " foot ") emptyWorld).1
                  = Success p' n → p' = p).
Proof.
  apply (shortest_path_minimal fixtureFs emptyWorld fixtureData "core" " foot ").
  - vm_compute. reflexivity.
  - eexists. vm_compute. reflexivity.
  - eexists. vm_compute. reflexivity.
  - exists ["CORE"; "CORK"; "FORK"; "FORT"; "FOOT"].
    apply ladder_isPath.
    apply (ladder_step _ _ ["CORE"; "CORK"; "FORK"; "FORT"] "FORT" "FOOT");
      [|vm_compute; set_solver].
    apply (ladder_step _ _ ["CORE"; "CORK"; "FORK"] "FORK" "FORT");
      [|vm_compute; set_solver].
    apply (ladder_step _ _ ["CORE"; "CORK"] "CORK" "FORK");
      [|vm_compute; set_solver].
    apply (ladder_step _ _ ["CORE"] "CORE" "CORK"); [|vm_compute; set_solver].
    constructor.
Defined.

(** C7.  When both normalised words are in the word list of the loaded
    artifact (whose words are all keys of its graph, as the builder makes
    them) and no group holds both, the route answers with the not-connected
    failure and the path search is not called. *)
Theorem disconnected_query_skips_search fs world d sw ew :
  let start := trim (toUpperCase sw) in
  let end_ := trim (toUpperCase ew) in
  String.length start = String.length end_ →
  2 ≤ String.length start ≤ 15 →
  stored fs world (String.length start) = Some d →
  (∀ w, w ∈ words d → is_Some (graph d !! w)) →
  start ∈ words d → end_ ∈ words d →
  (∀ k g, groups d !! k = Some g → ¬ (start ∈ g ∧ end_ ∈ g)) →
  (POST fs (query sw ew) world).1 = Failure NotConnected 400
  ∧ ∃ evs, trace (POST fs (query sw ew) world).2 = trace world ++ evs
           ∧ ∀ s e, CallFindShortestPath s e ∉ evs.
Proof.
  intros start end_ Hlen Hrange Hd Hwords Hs He Hgroups.
  assert (areInSameGroup start end_ (groups d) = false) as Hgrp.
  { apply not_true_is_false. intros (k & g & Hkg & H1 & H2)%areInSameGroup_spec.
    unfold start, end_ in H1, H2. rewrite !normalised_upper in H1, H2.
    by apply (Hgroups k g Hkg). }
  destruct (POST_loaded fs sw ew world d) as [Hans (evs & Htr & Hevs)]; auto.
  fold start end_ in Hans, Hevs. split.
  - rewrite Hans. unfold answer. by rewrite Hgrp.
  - exists evs. auto.
Qed.

Lemma disconnected_query_skips_search_witness :
  (POST fixtureFs (query "core" "jazz") emptyWorld).1 = Failure NotConnected 400
  ∧ ∃ evs, trace (POST fixtureFs (query "core" "jazz") emptyWorld).2
           = trace emptyWorld ++ evs
           ∧ ∀ s e, CallFindShortestPath s e ∉ evs.
Proof.
  apply (disconnected_query_skips_search fixtureFs emptyWorld fixtureData
           "core" "jazz").
  - vm_compute. reflexivity.
  - vm_compute. lia.
  - vm_compute. reflexivity.
  - intros w Hw. vm_compute in Hw.
    repeat (apply elem_of_cons in Hw as [->|Hw];
            [eexists; vm_compute; reflexivity|]).
    by apply elem_of_nil in Hw.
  - vm_compute. set_solver.
  - vm_compute. set_solver.
  - intros k g Hkg [H1 H2].
    assert (areInSameGroup "CORE" "JAZZ" (groups fixtureData) = true) as Hgrp.
    { apply areInSameGroup_spec. exists k, g.
      split; [exact Hkg|]. split; [exact H1|exact H2]. }
    vm_compute in Hgrp. discriminate.
Defined.

(** ** Claims about the dictionary store *)

(** C8 (amended).  With nothing cached for the length, [loadDictionary]
    returns [null] both when no artifact file exists and when reading or
    parsing it fails; the two cases differ only in the [console.error] line
    that the failure logs, and the route answers both with the same 404
    dictionary-not-found response. *)
Theorem load_failure_same_outcome fs n world :
  dictionaryCache world !! n = None →
  (∀ d, fs n ≠ Valid d) →
  (loadDictionary fs n world).1 = None
  ∧ trace (loadDictionary fs n world).2
    = trace world ++ match fs n with
                     | NoFile => [ExistsSync n]
                     | _ => [ExistsSync n; ReadFileSync n; ConsoleError n]
                     end
  ∧ ∀ sw ew,
      String.length (trim (toUpperCase sw)) = n →
      String.length (trim (toUpperCase ew)) = n →
      2 ≤ n ≤ 15 →
      (POST fs (query sw ew) world).1 = Failure (DictionaryNotFound n) 404.
Proof.
  intros Hcache Hfs. split_and!.
  - rewrite loadDictionary_result. unfold stored. rewrite Hcache.
    destruct (fs n) eqn:E; try done. by destruct (Hfs data).
  - unfold loadDictionary. unfold_M. rewrite Hcache.
    destruct (fs n) eqn:E; simpl; rewrite <-?app_assoc; try done.
    by destruct (Hfs data).
  - intros sw ew Hs He Hrange.
    assert (falsy (Some sw) = false) as Hfs'.
    { destruct sw; [|done]. vm_compute in Hs. lia. }
    assert (falsy (Some ew) = false) as Hfe'.
    { destruct ew; [|done]. vm_compute in He. lia. }
    unfold POST, query. cbn [startWord endWord from_option id].
    rewrite Hfs', Hfe'. cbn [orb]. rewrite Hs, He.
    destruct (decide _) as [Hne|_]; [done|].
    destruct (decide _) as [Hout|_]; [lia|].
    unfold mbind, M_bind, bind.
    pose proof (loadDictionary_result fs n world) as Hload.
    unfold stored in Hload. rewrite Hcache in Hload.
    destruct (loadDictionary fs n world) as [r w']. simpl in Hload. subst r.
    destruct (fs n) eqn:E; try done. by destruct (Hfs data).
Qed.

Lemma load_failure_same_outcome_witness :
  (loadDictionary (λ _, Corrupt) 4 emptyWorld).1 = None
  ∧ (POST (λ _, Corrupt) (query "CORE" "CORK") emptyWorld).1
    = Failure (DictionaryNotFound 4) 404.
Proof.
  destruct (load_failure_same_outcome (λ _, Corrupt) 4 emptyWorld)
    as (H1 & _ & H3); [reflexivity|discriminate|].
  split; [exact H1|]. apply H3; [reflexivity|reflexivity|lia].
Defined.

(** C8, as stated, fails: a missing artifact and an unreadable one give the
    same result to the caller of [loadDictionary] and the same response to
    the caller of the route. *)
Lemma load_outcomes_counterexample :
  (loadDictionary (λ _, NoFile) 4 emptyWorld).1
  = (loadDictionary (λ _, Unreadable) 4 emptyWorld).1
  ∧ (POST (λ _, NoFile) (query "CORE" "CORK") emptyWorld).1
    = (POST (λ _, Unreadable) (query "CORE" "CORK") emptyWorld).1.
Proof. split; reflexivity. Qed.

(** C9.  [loadDictionary] changes the cache only by inserting the artifact
    it has just read and parsed; when nothing is cached and the file is
    missing, unreadable or corrupt it returns [null] and leaves the cache as
    it was, so the next call for that length looks at the file again and
    returns whatever it then holds. *)
Theorem load_caches_only_success fs n world :
  (dictionaryCache (loadDictionary fs n world).2 = dictionaryCache world
   ∨ ∃ d, fs n = Valid d
          ∧ dictionaryCache world !! n = None
          ∧ (loadDictionary fs n world).1 = Some d
          ∧ dictionaryCache (loadDictionary fs n world).2
            = <[n := d]> (dictionaryCache world))
  ∧ (dictionaryCache world !! n = None → (∀ d, fs n ≠ Valid d) →
     (loadDictionary fs n world).1 = None
     ∧ dictionaryCache (loadDictionary fs n world).2 = dictionaryCache world
     ∧ ∀ fs',
         let world' := (loadDictionary fs n world).2 in
         (∃ evs, trace (loadDictionary fs' n world').2
                 = trace world' ++ ExistsSync n :: evs)
         ∧ (loadDictionary fs' n world').1
           = match fs' n with Valid d => Some d | _ => None end).
Proof.
  split.
  - unfold loadDictionary. unfold_M.
    destruct (dictionaryCache world !! n) eqn:Hc; simpl; [by left|].
    destruct (fs n) eqn:E; simpl; eauto 10.
  - intros Hcache Hfs.
    assert (dictionaryCache (loadDictionary fs n world).2 = dictionaryCache world)
      as Hsame.
    { unfold loadDictionary. unfold_M. rewrite Hcache.
      destruct (fs n) eqn:E; simpl; try done. by destruct (Hfs data). }
    split_and!; [|done|].
    + rewrite loadDictionary_result. unfold stored. rewrite Hcache.
      destruct (fs n) eqn:E; try done. by destruct (Hfs data).
    + intros fs' world'.
      assert (dictionaryCache world' !! n = None) as Hc'.
      { unfold world'. by rewrite Hsame. }
      split.
      * unfold loadDictionary at 1. unfold_M. rewrite Hc'.
        destruct (fs' n); simpl; rewrite <-?app_assoc; simpl; eauto.
      * rewrite loadDictionary_result. unfold stored. by rewrite Hc'.
Qed.

Lemma load_caches_only_success_witness :
  (loadDictionary (λ _, Corrupt) 4 emptyWorld).1 = None
  ∧ dictionaryCache (loadDictionary (λ _, Corrupt) 4 emptyWorld).2 = ∅
  ∧ (loadDictionary fixtureFs 4 (loadDictionary (λ _, Corrupt) 4 emptyWorld).2).1
    = Some fixtureData.
Proof.
  destruct (load_caches_only_success (λ _, Corrupt) 4 emptyWorld) as [_ H].
  destruct H as (H1 & H2 & H3); [reflexivity|discriminate|].
  split; [exact H1|]. split; [exact H2|].
  destruct (H3 fixtureFs) as [_ H4]. exact H4.
Defined.

(** ** Patterns and the one-letter relation *)

Lemma substitute_0 c w x : substitute (String c w) 0 x = String x w.
Proof. reflexivity. Qed.

Lemma substitute_S c w i x :
  substitute (String c w) (S i) x = String c (substitute w i x).
Proof. reflexivity. Qed.

Lemma substitute_length w : ∀ i x,
  i < String.length w → String.length (substitute w i x) = String.length w.
Proof.
  induction w as [|c w IH]; intros i x Hi; simpl in Hi; [lia|].
  destruct i as [|i].
  - by rewrite substitute_0.
  - rewrite substitute_S. simpl. rewrite IH by lia. done.
Qed.

Lemma hamming_refl a : hamming a a = 0.
Proof. induction a as [|c a IH]; simpl; [done|]. by destruct (decide (c = c)). Qed.

Lemma hamming_sym a : ∀ b, hamming a b = hamming b a.
Proof.
  induction a as [|x a IH]; intros [|y b]; simpl; try done.
  rewrite (IH b). destruct (decide (x = y)), (decide (y = x)); congruence.
Qed.

Lemma hamming_0 a : ∀ b,
  String.length a = String.length b → hamming a b = 0 → a = b.
Proof.
  induction a as [|x a IH]; intros [|y b] Hlen Hh; simpl in *; try done.
  destruct (decide (x = y)) as [->|]; [|lia]. f_equal. apply IH; lia.
Qed.

Lemma oneLetterApart_sym a b : oneLetterApart a b → oneLetterApart b a.
Proof. intros [Hl Hh]. split; [done|]. by rewrite hamming_sym. Qed.

Lemma oneLetterApart_irrefl a : ¬ oneLetterApart a a.
Proof. intros [_ Hh]. rewrite hamming_refl in Hh. lia. Qed.

(** Two words of the builder's input that share a wildcard pattern have the
    same length and differ in at most the masked position. *)
Lemma pattern_eq_hamming a : ∀ b i j,
  allUpperLetters a = true → allUpperLetters b = true →
  i < String.length a → j < String.length b →
  substitute a i "_" = substitute b j "_" →
  String.length a = String.length b ∧ hamming a b ≤ 1.
Proof.
  induction a as [|x a IH]; intros [|y b] i j Ha Hb Hi Hj Heq;
    simpl in Hi, Hj; try lia.
  simpl in Ha, Hb.
  apply andb_true_iff in Ha as [Hx Ha]. apply andb_true_iff in Hb as [Hy Hb].
  destruct i as [|i], j as [|j];
    rewrite ?substitute_0, ?substitute_S in Heq; simplify_eq.
  - simpl. rewrite hamming_refl. split; [done|]. destruct (decide _); lia.
  - destruct (IH b i j) as [Hl Hh]; [done|done|lia|lia|done|].
    simpl. rewrite Hl. split; [done|]. by destruct (decide (y = y)).
Qed.

Lemma hamming_pattern_eq a : ∀ b,
  String.length a = String.length b → hamming a b = 1 →
  ∃ i, i < String.length a ∧ substitute a i "_" = substitute b i "_".
Proof.
  induction a as [|x a IH]; intros [|y b] Hlen Hh; simpl in *; try done.
  destruct (decide (x = y)) as [->|Hne].
  - destruct (IH b) as (i & Hi & Heq); [lia|lia|].
    exists (S i). split; [lia|]. by rewrite !substitute_S, Heq.
  - exists 0. split; [lia|]. rewrite !substitute_0.
    f_equal. apply hamming_0; lia.
Qed.

(** ** The builder: pattern index and graph *)

Lemma pushTo_lookup {K} `{Countable K} (k k' : K) w (m : gmap K (list string)) x :
  x ∈ default [] (pushTo k w m !! k')
  ↔ x ∈ default [] (m !! k') ∨ (k' = k ∧ x = w).
Proof.
  unfold pushTo. destruct (decide (k' = k)) as [->|Hne].
  - rewrite lookup_insert_eq. simpl. rewrite elem_of_app, list_elem_of_singleton.
    naive_solver.
  - rewrite lookup_insert_ne by done. naive_solver.
Qed.

(** The inner loop of step 1, over the positions of one word. *)
Lemma pattern_fold_lookup word (positions : list nat) : ∀ m p x,
  x ∈ default [] (foldl (λ patternMap i,
                           pushTo (substitute word i "_") word patternMap)
                        m positions !! p)
  ↔ x ∈ default [] (m !! p)
    ∨ (x = word ∧ ∃ i, i ∈ positions ∧ substitute word i "_" = p).
Proof.
  induction positions as [|i positions IH]; intros m p x; simpl.
  - set_solver.
  - rewrite IH, pushTo_lookup. set_solver.
Qed.

Lemma buildPatternMap_lookup wordList p x :
  x ∈ default [] (buildPatternMap wordList !! p)
  ↔ x ∈ wordList ∧ ∃ i, i < String.length x ∧ substitute x i "_" = p.
Proof.
  unfold buildPatternMap.
  assert (∀ l m,
    x ∈ default [] (foldl (λ patternMap word,
          foldl (λ patternMap i, pushTo (substitute word i "_") word patternMap)
                patternMap (seq 0 (String.length word))) m l !! p)
    ↔ x ∈ default [] (m !! p)
      ∨ (x ∈ l ∧ ∃ i, i < String.length x ∧ substitute x i "_" = p)) as Hgen.
  { induction l as [|word l IH]; intros m; simpl.
    - set_solver.
    - rewrite IH, pattern_fold_lookup. setoid_rewrite elem_of_seq.
      rewrite elem_of_cons. split.
      + intros [[?|[-> (i & ? & ?)]]|[? ?]]; eauto.
        right. split; [by left|]. exists i. split; [lia|done].
      + intros [?|[[->|?] (i & ? & ?)]]; eauto.
        left. right. split; [done|]. exists i. split; [lia|done]. }
  rewrite Hgen, lookup_empty. simpl. set_solver.
Qed.

Lemma setAdd_elem x y s : y ∈ setAdd x s ↔ y ∈ s ∨ y = x.
Proof. unfold setAdd. destruct (decide (x ∈ s)); set_solver. Qed.

Lemma setAdd_NoDup x s : NoDup s → NoDup (setAdd x s).
Proof.
  unfold setAdd. destruct (decide (x ∈ s)); [done|]. intros Hs.
  apply NoDup_app. split_and!; [done|set_solver|apply NoDup_singleton].
Qed.

(** The inner loop of step 2, over one pattern bucket. *)
Lemma bucket_fold_elem word (bucket : list string) : ∀ acc y,
  y ∈ foldl (λ neighborSet neighbor,
               if decide (neighbor ≠ word) then setAdd neighbor neighborSet
               else neighborSet) acc bucket
  ↔ y ∈ acc ∨ (y ∈ bucket ∧ y ≠ word).
Proof.
  induction bucket as [|b bucket IH]; intros acc y; simpl.
  - set_solver.
  - rewrite IH. destruct (decide (b ≠ word)) as [Hne|Heq].
    + rewrite setAdd_elem. set_solver.
    + apply dec_stable in Heq. set_solver.
Qed.

Lemma collectNeighbors_elem patternMap word y :
  y ∈ collectNeighbors patternMap word
  ↔ y ≠ word
    ∧ ∃ i, i < String.length word
           ∧ y ∈ default [] (patternMap !! substitute word i "_").
Proof.
  unfold collectNeighbors.
  assert (∀ positions acc,
    y ∈ foldl (λ neighborSet i,
                 foldl (λ neighborSet neighbor,
                          if decide (neighbor ≠ word)
                          then setAdd neighbor neighborSet else neighborSet)
                       neighborSet
                       (default [] (patternMap !! substitute word i "_")))
              acc positions
    ↔ y ∈ acc
      ∨ (y ≠ word
         ∧ ∃ i, i ∈ positions
                ∧ y ∈ default [] (patternMap !! substitute word i "_")))
    as Hgen.
  { induction positions as [|i positions IH]; intros acc; simpl.
    - set_solver.
    - rewrite IH, bucket_fold_elem. set_solver. }
  rewrite Hgen. setoid_rewrite elem_of_seq. split.
  - intros [[]%elem_of_nil|[? (i & ? & ?)]]. split; [done|].
    exists i. split; [lia|done].
  - intros [? (i & ? & ?)]. right. split; [done|].
    exists i. split; [lia|done].
Qed.

Lemma graph_fold_lookup (f : string → list string) (l : list string) :
  ∀ (m : gmap string (list string)) k,
  foldl (λ graph word, <[word := f word]> graph) m l !! k
  = if decide (k ∈ l) then Some (f k) else m !! k.
Proof.
  induction l as [|w l IH]; intros m k; simpl.
  - destruct (decide (k ∈ [])) as [[]%elem_of_nil|]; done.
  - rewrite IH. destruct (decide (k ∈ l)) as [Hin|Hnin].
    + rewrite decide_True by set_solver. done.
    + destruct (decide (k = w)) as [->|Hne].
      * rewrite lookup_insert_eq. rewrite decide_True by set_solver. done.
      * rewrite lookup_insert_ne by done. rewrite decide_False by set_solver.
        done.
Qed.

Lemma buildGraph_lookup wordList w :
  buildGraph wordList !! w
  = if decide (w ∈ wordList)
    then Some (collectNeighbors (buildPatternMap wordList) w) else None.
Proof. unfold buildGraph. by rewrite graph_fold_lookup, lookup_empty. Qed.

(** The edges of the built graph, with no assumption on the words. *)
Lemma buildGraph_edge wordList a b :
  edge (buildGraph wordList) a b
  ↔ a ∈ wordList ∧ b ∈ wordList ∧ b ≠ a
    ∧ ∃ i j, i < String.length a ∧ j < String.length b
             ∧ substitute b j "_" = substitute a i "_".
Proof.
  unfold edge, neighborsOf. rewrite buildGraph_lookup.
  destruct (decide (a ∈ wordList)) as [Ha|Ha]; simpl.
  - rewrite collectNeighbors_elem.
    setoid_rewrite buildPatternMap_lookup. naive_solver.
  - split; [by intros []%elem_of_nil|naive_solver].
Qed.

Lemma buildGraph_symmetric wordList a b :
  edge (buildGraph wordList) a b → edge (buildGraph wordList) b a.
Proof. rewrite !buildGraph_edge. naive_solver. Qed.

Lemma buildGraph_words wordList a b :
  edge (buildGraph wordList) a b → b ∈ wordList.
Proof. rewrite buildGraph_edge. naive_solver. Qed.

Lemma testAZ_letters w : testAZ w = true → allUpperLetters w = true.
Proof. by destruct w. Qed.

(** On the builder's input (upper-case letter words) an edge is exactly a
    one-letter substitution. *)
Lemma buildGraph_adjacent wordList a b :
  Forall (λ w, testAZ w = true) wordList →
  edge (buildGraph wordList) a b
  ↔ a ∈ wordList ∧ b ∈ wordList ∧ oneLetterApart a b.
Proof.
  intros HAZ. rewrite Forall_forall in HAZ. rewrite buildGraph_edge. split.
  - intros (Ha & Hb & Hne & i & j & Hi & Hj & Heq).
    split; [done|]. split; [done|].
    destruct (pattern_eq_hamming a b i j) as [Hl Hh];
      auto using testAZ_letters.
    split; [done|].
    destruct (hamming a b) as [|[|n]] eqn:E; [|done|lia].
    destruct Hne. symmetry. by apply hamming_0.
  - intros (Ha & Hb & Hl & Hh). split; [done|]. split; [done|]. split.
    + intros ->. rewrite hamming_refl in Hh. lia.
    + destruct (hamming_pattern_eq a b Hl Hh) as (i & Hi & Heq).
      exists i, i. split; [done|]. split; [lia|done].
Qed.

(** C4.  In the graph built from upper-case letter words (what the builder
    keeps of its input), two words of the list are neighbours exactly when
    they have the same length and differ in one position; the adjacency is
    symmetric and irreflexive. *)
Theorem adjacency_correct wordList :
  Forall (λ w, testAZ w = true) wordList →
  (∀ a b, a ∈ wordList → b ∈ wordList →
          (edge (buildGraph wordList) a b ↔ oneLetterApart a b))
  ∧ (∀ a b, edge (buildGraph wordList) a b → edge (buildGraph wordList) b a)
  ∧ (∀ a, ¬ edge (buildGraph wordList) a a).
Proof.
  intros HAZ. split_and!.
  - intros a b Ha Hb. rewrite buildGraph_adjacent by done. naive_solver.
  - apply buildGraph_symmetric.
  - intros a. rewrite buildGraph_edge. naive_solver.
Qed.

Lemma adjacency_correct_witness :
  (edge (buildGraph fixtureWords) "FORK" "FORT" ↔ oneLetterApart "FORK" "FORT")
  ∧ ¬ edge (buildGraph fixtureWords) "CORE" "CORE".
Proof.
  destruct (adjacency_correct fixtureWords) as (H1 & _ & H3).
  - repeat constructor.
  - split; [|apply H3]. apply H1; vm_compute; set_solver.
Defined.

(** ** The builder: connectivity groups *)

Section Groups.
Context (g : gmap string (list string)).

Lemma groupVisit_fold_measure (U : gset string) ns : ∀ V (Q : list string),
  (∀ n, n ∈ ns → n ∈ U) →
  length (foldl groupVisit (V, Q) ns).2
    + size (U ∖ (foldl groupVisit (V, Q) ns).1)
  = length Q + size (U ∖ V).
Proof.
  induction ns as [|n ns IH]; intros V Q HU; [done|].
  simpl. unfold groupVisit at 2 4. simpl.
  case_bool_decide as Hn.
  - rewrite IH by (intros; apply HU; set_solver).
    rewrite length_app. simpl.
    rewrite (size_difference_visit U V n); [lia|done|].
    apply HU. set_solver.
  - apply IH. intros; apply HU; set_solver.
Qed.

Lemma group_loop_fuel (U : gset string) :
  (∀ u v, edge g u v → v ∈ U) →
  ∀ fuel V Q G,
    length Q + size (U ∖ V) < fuel → is_Some (group_loop fuel g V Q G).
Proof.
  intros HU. induction fuel as [|fuel IH]; intros V Q G Hlt; [lia|].
  destruct Q as [|c Q]; simpl; [by eexists|].
  apply IH. rewrite (groupVisit_fold_measure U).
  - simpl in Hlt. lia.
  - intros n Hn. by apply (HU c).
Qed.

Lemma groupVisit_fold_spec ns : ∀ V (Q : list string),
  ∃ V' news,
    foldl groupVisit (V, Q) ns = (V', Q ++ news)
    ∧ (∀ x, x ∈ V' ↔ x ∈ V ∨ x ∈ ns)
    ∧ NoDup news
    ∧ (∀ x, x ∈ news → x ∈ ns ∧ x ∉ V)
    ∧ (∀ x, x ∈ ns → x ∈ V ∨ x ∈ news).
Proof.
  induction ns as [|n ns IH]; intros V Q.
  - exists V, []. rewrite app_nil_r. split_and!; try done.
    + set_solver.
    + constructor.
    + set_solver.
    + set_solver.
  - simpl. unfold groupVisit at 2. simpl.
    case_bool_decide as Hn.
    + destruct (IH ({[n]} ∪ V) (Q ++ [n]))
        as (V' & news & Heq & HV & Hnd & Hnews & Hns).
      exists V', (n :: news). split_and!.
      * etrans; [exact Heq|]. by rewrite <-app_assoc.
      * set_solver.
      * constructor; [|done]. intros Hin. apply Hnews in Hin. set_solver.
      * intros x [->|Hx]%elem_of_cons; [set_solver|].
        apply Hnews in Hx. set_solver.
      * intros x [->|Hx]%elem_of_cons; [set_solver|].
        destruct (Hns x Hx); set_solver.
    + destruct (IH V Q) as (V' & news & Heq & HV & Hnd & Hnews & Hns).
      exists V', news. split_and!; [done|set_solver|done| |].
      * intros x Hx. apply Hnews in Hx. set_solver.
      * intros x [->|Hx]%elem_of_cons; [by left|]. eauto.
Qed.

(** What one connectivity search adds to [visited] and puts in [group]. *)
Lemma group_loop_spec : ∀ fuel V Q G V' G',
  group_loop fuel g V Q G = Some (V', G') →
  ∃ new,
    G' = G ++ Q ++ new
    ∧ NoDup new
    ∧ (∀ x, x ∈ new → x ∉ V)
    ∧ (∀ x, x ∈ V' ↔ x ∈ V ∨ x ∈ new)
    ∧ (∀ x, x ∈ new → ∃ u, u ∈ Q ∧ rtc (edge g) u x)
    ∧ (∀ u v, u ∈ Q ++ new → edge g u v → v ∈ V').
Proof.
  induction fuel as [|fuel IH]; intros V Q G V' G' Hr; [done|].
  destruct Q as [|c Q]; simpl in Hr.
  - simplify_eq. exists []. split_and!.
    + by rewrite !app_nil_r.
    + constructor.
    + set_solver.
    + set_solver.
    + set_solver.
    + set_solver.
  - destruct (groupVisit_fold_spec (neighborsOf g c) V Q)
      as (V1 & n1 & Heq & HV1 & Hnd1 & Hn1 & Hns).
    rewrite Heq in Hr. simpl in Hr.
    apply IH in Hr as (new' & -> & Hnd & Hfresh & HV' & Hreach & Hclosed).
    exists (n1 ++ new'). split_and!.
    + by rewrite <-!app_assoc.
    + apply NoDup_app. split_and!; [done| |done].
      intros x Hx Hx'. apply Hfresh in Hx'. apply Hx'. apply HV1.
      right. by apply Hn1.
    + intros x [Hx|Hx]%elem_of_app.
      * by apply Hn1.
      * apply Hfresh in Hx. intros HxV. apply Hx, HV1. by left.
    + intros x. rewrite HV', HV1, elem_of_app. split.
      * intros [[?|Hx]|?]; auto. destruct (Hns x Hx); auto.
      * intros [?|[Hx|?]]; auto. apply Hn1 in Hx as [? ?]. auto.
    + intros x [Hx|Hx]%elem_of_app.
      * exists c. split; [set_solver|]. apply rtc_once. by apply Hn1.
      * destruct (Hreach x Hx) as (u & [Hu|Hu]%elem_of_app & Hux).
        -- exists u. split; [set_solver|done].
        -- exists c. split; [set_solver|].
           eapply rtc_l; [|exact Hux]. by apply Hn1.
    + intros u v Hu Huv.
      apply elem_of_cons in Hu as [->|Hu].
      * apply HV'. left. apply HV1. by right.
      * apply (Hclosed u v); [|done]. by rewrite <-app_assoc.
Qed.
End Groups.

Section Partition.
Context (g : gmap string (list string)) (W : list string).
Hypothesis g_sym : ∀ u v, edge g u v → edge g v u.
Hypothesis g_words : ∀ u v, edge g u v → v ∈ W.

Lemma reach_words r x : r ∈ W → rtc (edge g) r x → x ∈ W.
Proof. intros Hr Hrx. induction Hrx; eauto. Qed.

Lemma GroupsOk_init :
  GroupsOk g W {| foundGroups := ∅; visitedWords := ∅; groupId := 0 |}.
Proof.
  split; simpl.
  - intros x. split; [set_solver|]. intros (k & grp & Hk & _).
    by rewrite lookup_empty in Hk.
  - intros k _. apply lookup_empty.
  - intros k1 k2 g1 g2 x Hk. by rewrite lookup_empty in Hk.
  - intros k grp Hk. by rewrite lookup_empty in Hk.
  - intros k grp Hk. by rewrite lookup_empty in Hk.
  - intros k grp u v Hk. by rewrite lookup_empty in Hk.
  - set_solver.
Qed.

Lemma groupStep_ok s word :
  GroupsOk g W s → word ∈ W →
  ∃ s', groupStep g (Some s) word = Some s'
        ∧ GroupsOk g W s'
        ∧ (∀ x, x ∈ visitedWords s → x ∈ visitedWords s')
        ∧ word ∈ visitedWords s'.
Proof.
  intros Hok Hword. unfold groupStep. cbn [mbind option_bind].
  case_bool_decide as Hvis; [by exists s|].
  destruct (group_loop_fuel g (list_to_set (targets g))
              ltac:(intros u v Huv; apply elem_of_list_to_set;
                    by eapply elem_of_targets)
              (pathFuel g) ({[word]} ∪ visitedWords s) [word] [])
    as [[V' G'] Hloop].
  { simpl. unfold pathFuel.
    pose proof (size_list_to_set_le (targets g)).
    pose proof (subseteq_size
                  (list_to_set (targets g) ∖ ({[word]} ∪ visitedWords s))
                  (list_to_set (targets g) : gset string) ltac:(set_solver)).
    lia. }
  rewrite Hloop. cbn [mbind option_bind].
  apply group_loop_spec in Hloop
    as (new & -> & Hnd & Hfresh & HV' & Hreach & Hclosed).
  cbn [app]. rewrite decide_True by (simpl; lia).
  assert (∀ x, x ∈ word :: new → x ∉ visitedWords s) as Hnew.
  { intros x [->|Hx]%elem_of_cons; [done|]. apply Hfresh in Hx. set_solver. }
  assert (∀ x, x ∈ word :: new → rtc (edge g) word x) as Hroot.
  { intros x [->|Hx]%elem_of_cons; [done|].
    destruct (Hreach x Hx) as (u & ->%list_elem_of_singleton & Hux). done. }
  assert (foundGroups s !! groupId s = None) as Hfresh_id.
  { by apply (ok_keys _ _ _ Hok). }
  eexists. split; [done|]. split_and!; simpl.
  - split; simpl.
    + intros x. rewrite HV'. split.
      * intros [[->%elem_of_singleton|Hx]%elem_of_union|Hx].
        -- exists (groupId s), (word :: new).
           rewrite lookup_insert_eq. set_solver.
        -- apply (ok_visited _ _ _ Hok) in Hx as (k & grp & Hk & Hx).
           exists k, grp. split; [|done].
           rewrite lookup_insert_ne; [done|]. intros <-. congruence.
        -- exists (groupId s), (word :: new).
           rewrite lookup_insert_eq. set_solver.
      * intros (k & grp & Hk & Hx).
        destruct (decide (groupId s = k)) as [<-|Hne].
        -- rewrite lookup_insert_eq in Hk. simplify_eq. set_solver.
        -- rewrite lookup_insert_ne in Hk by done.
           left. apply elem_of_union. right.
           apply (ok_visited _ _ _ Hok). eauto.
    + intros k Hk. rewrite lookup_insert_ne by lia.
      apply (ok_keys _ _ _ Hok). lia.
    + intros k1 k2 g1 g2 x Hk1 Hk2 Hx1 Hx2.
      destruct (decide (groupId s = k1)) as [<-|Hne1];
        destruct (decide (groupId s = k2)) as [<-|Hne2]; [done|..].
      * rewrite lookup_insert_eq in Hk1. rewrite lookup_insert_ne in Hk2 by done.
        simplify_eq. destruct (Hnew x Hx1).
        apply (ok_visited _ _ _ Hok). eauto.
      * rewrite lookup_insert_eq in Hk2. rewrite lookup_insert_ne in Hk1 by done.
        simplify_eq. destruct (Hnew x Hx2).
        apply (ok_visited _ _ _ Hok). eauto.
      * rewrite lookup_insert_ne in Hk1, Hk2 by done.
        eapply (ok_disjoint _ _ _ Hok); eauto.
    + intros k grp Hk.
      destruct (decide (groupId s = k)) as [<-|Hne].
      * rewrite lookup_insert_eq in Hk. simplify_eq.
        constructor; [|done]. intros Hin. apply Hfresh in Hin. set_solver.
      * rewrite lookup_insert_ne in Hk by done.
        by eapply (ok_NoDup _ _ _ Hok).
    + intros k grp Hk.
      destruct (decide (groupId s = k)) as [<-|Hne].
      * rewrite lookup_insert_eq in Hk. simplify_eq. by exists word.
      * rewrite lookup_insert_ne in Hk by done.
        by eapply (ok_rooted _ _ _ Hok).
    + intros k grp u v Hk Hu Huv.
      destruct (decide (groupId s = k)) as [<-|Hne].
      * rewrite lookup_insert_eq in Hk. simplify_eq.
        assert (v ∈ V') as Hv by (by apply (Hclosed u v)).
        apply HV' in Hv as [[->%elem_of_singleton|Hv]%elem_of_union|Hv];
          [set_solver| |set_solver].
        apply (ok_visited _ _ _ Hok) in Hv as (k & grp & Hk & Hv).
        destruct (Hnew u Hu). apply (ok_visited _ _ _ Hok).
        exists k, grp. split; [done|].
        eapply (ok_closed _ _ _ Hok); eauto.
      * rewrite lookup_insert_ne in Hk by done.
        eapply (ok_closed _ _ _ Hok); eauto.
    + intros x [[->%elem_of_singleton|Hx]%elem_of_union|Hx]%HV'.
      * done.
      * by apply (ok_words _ _ _ Hok).
      * eapply reach_words; [exact Hword|]. apply Hroot. set_solver.
  - intros x Hx. apply HV'. set_solver.
  - apply HV'. set_solver.
Qed.

Lemma findGroups_fold_ok l : ∀ s,
  GroupsOk g W s → (∀ x, x ∈ l → x ∈ W) →
  ∃ s', foldl (groupStep g) (Some s) l = Some s'
        ∧ GroupsOk g W s'
        ∧ (∀ x, x ∈ visitedWords s → x ∈ visitedWords s')
        ∧ (∀ x, x ∈ l → x ∈ visitedWords s').
Proof.
  induction l as [|word l IH]; intros s Hok Hl; cbn [foldl].
  - exists s. split_and!; [done|done|done|]. intros x []%elem_of_nil.
  - destruct (groupStep_ok s word Hok) as (s1 & -> & Hok1 & Hmono1 & Hw1);
      [apply Hl; set_solver|].
    destruct (IH s1 Hok1) as (s' & Hs' & Hok' & Hmono' & Hl');
      [intros; apply Hl; set_solver|].
    exists s'. split_and!; [done|done|by eauto|].
    intros x [->|Hx]%elem_of_cons; eauto.
Qed.
End Partition.

Lemma connected_rtc adj s e : connected adj s e ↔ rtc adj s e.
Proof.
  split.
  - intros [p Hp%isPath_ladder].
    induction Hp as [|p u v Hp IH Huv]; [done|]. by eapply rtc_r.
  - revert e. apply rtc_ind_r.
    + exists [s]. apply ladder_isPath. constructor.
    + intros y z _ Hyz [p Hp%isPath_ladder].
      exists (p ++ [z]). apply ladder_isPath. by eapply ladder_step.
Qed.

Lemma rtc_symmetric (adj : string → string → Prop) :
  (∀ u v, adj u v → adj v u) → ∀ s e, rtc adj s e → rtc adj e s.
Proof.
  intros Hsym s e Hrtc. induction Hrtc as [|x y z Hxy Hyz IH]; [done|].
  eapply rtc_r; [exact IH|]. by apply Hsym.
Qed.

(** The connectivity search on the built graph succeeds and its final state
    satisfies the invariant. *)
Lemma findGroupsFrom_ok wordList :
  ∃ s, findGroupsFrom wordList (buildGraph wordList) = Some s
       ∧ GroupsOk (buildGraph wordList) wordList s
       ∧ ∀ x, x ∈ wordList → x ∈ visitedWords s.
Proof.
  destruct (findGroups_fold_ok (buildGraph wordList) wordList
              (buildGraph_symmetric wordList) (buildGraph_words wordList)
              wordList _ (GroupsOk_init _ _
                            (buildGraph_symmetric wordList)
                            (buildGraph_words wordList)))
    as (s & Hs & Hok & _ & Hall); [done|].
  exists s. done.
Qed.

(** C5.  The connectivity search on the graph built from any word list
    returns groups that partition the list: a word is in some group exactly
    when it is in the list, no word is in two groups, and no group lists a
    word twice. *)
Theorem groups_partition wordList :
  ∃ groups,
    findGroups wordList (buildGraph wordList) = Some groups
    ∧ (∀ w, w ∈ wordList ↔ ∃ k grp, groups !! k = Some grp ∧ w ∈ grp)
    ∧ (∀ k1 k2 g1 g2 w,
         groups !! k1 = Some g1 → groups !! k2 = Some g2 →
         w ∈ g1 → w ∈ g2 → k1 = k2)
    ∧ (∀ k grp, groups !! k = Some grp → NoDup grp).
Proof.
  destruct (findGroupsFrom_ok wordList) as (s & Hs & Hok & Hall).
  exists (foundGroups s). unfold findGroups. rewrite Hs. split_and!.
  - done.
  - intros w. split.
    + intros Hw. by apply (ok_visited _ _ _ Hok), Hall.
    + intros Hw. by apply (ok_words _ _ _ Hok), (ok_visited _ _ _ Hok).
  - apply (ok_disjoint _ _ _ Hok).
  - apply (ok_NoDup _ _ _ Hok).
Qed.

(** A word of the list shares a group with exactly the words that the
    built graph connects it to. *)
Lemma shared_group_connected wordList groups a b :
  findGroups wordList (buildGraph wordList) = Some groups →
  a ∈ wordList →
  (∃ k grp, groups !! k = Some grp ∧ a ∈ grp ∧ b ∈ grp)
  ↔ connected (edge (buildGraph wordList)) a b.
Proof.
  intros Hgroups Ha.
  destruct (findGroupsFrom_ok wordList) as (s & Hs & Hok & Hall).
  unfold findGroups in Hgroups. rewrite Hs in Hgroups. simplify_eq/=.
  rewrite connected_rtc. split.
  - intros (k & grp & Hk & Hag & Hbg).
    destruct (ok_rooted _ _ _ Hok k grp Hk) as [r Hr].
    etrans; [|by apply Hr].
    apply rtc_symmetric; [apply buildGraph_symmetric|]. by apply Hr.
  - intros Hrtc.
    destruct (proj1 (ok_visited _ _ _ Hok a) (Hall a Ha)) as (k & grp & Hk & Hag).
    exists k, grp. split; [done|]. split; [done|].
    clear Ha. induction Hrtc as [|x y z Hxy Hyz IH]; [done|].
    apply IH. by eapply (ok_closed _ _ _ Hok).
Qed.

(** C6.  For two words of the list, lying in one group of the produced
    partition is the same as being joined by a path of the built graph;
    [areInSameGroup] decides it on the builder's upper-case words. *)
Theorem same_group_iff_connected wordList groups a b :
  Forall (λ w, testAZ w = true) wordList →
  findGroups wordList (buildGraph wordList) = Some groups →
  a ∈ wordList → b ∈ wordList →
  ((∃ k grp, groups !! k = Some grp ∧ a ∈ grp ∧ b ∈ grp)
   ↔ connected (edge (buildGraph wordList)) a b)
  ∧ (areInSameGroup a b groups = true
     ↔ connected (edge (buildGraph wordList)) a b).
Proof.
  intros HAZ Hgroups Ha Hb.
  pose proof (shared_group_connected wordList groups a b Hgroups Ha) as Hiff.
  split; [done|].
  rewrite areInSameGroup_spec.
  rewrite Forall_forall in HAZ.
  rewrite !toUpperCase_letters by auto using testAZ_letters. done.
Qed.

Lemma same_group_iff_connected_witness :
  areInSameGroup "CORE" "FOOT" (groups fixtureData) = true
  ↔ connected (edge (buildGraph fixtureWords)) "CORE" "FOOT".
Proof.
  destruct (same_group_iff_connected fixtureWords (groups fixtureData)
              "CORE" "FOOT") as [_ H].
  - repeat constructor.
  - vm_compute. reflexivity.
  - vm_compute. set_solver.
  - vm_compute. set_solver.
  - exact H.
Defined.

Lemma adjacentPairs_mono (adj adj' : string → string → Prop) p :
  (∀ u v, adj u v → adj' u v) → adjacentPairs adj p → adjacentPairs adj' p.
Proof. intros H Hp i u v Hu Hv. eauto. Qed.

(** C3.  Every path the route answers with starts with the requested start
    word and ends with the requested end word (both as the route normalises
    them: upper-cased and trimmed), and each two consecutive elements are
    neighbours in the loaded artifact's adjacency mapping; when that mapping
    was built by the builder, they differ in exactly one letter. *)
Theorem returned_path_valid fs world req p n :
  (POST fs req world).1 = Success p n →
  ∃ sw ew d,
    startWord req = Some sw ∧ endWord req = Some ew
    ∧ stored fs world (String.length (trim (toUpperCase sw))) = Some d
    ∧ isPath (edge (graph d)) (trim (toUpperCase sw)) (trim (toUpperCase ew)) p
    ∧ (∀ wordList,
         Forall (λ w, testAZ w = true) wordList →
         graph d = buildGraph wordList →
         adjacentPairs oneLetterApart p).
Proof.
  intros (sw & ew & d & Hsw & Hew & Hd & Hp & _)%POST_Success.
  apply findShortestPath_sound in Hp. rewrite !normalised_upper in Hp.
  exists sw, ew, d. split_and!; try done.
  intros wordList HAZ Hg. destruct Hp as (_ & _ & Hpairs).
  eapply adjacentPairs_mono; [|exact Hpairs].
  intros u v Huv. rewrite Hg in Huv.
  apply buildGraph_adjacent in Huv; [|done]. tauto.
Qed.

Lemma returned_path_valid_witness :
  isPath (edge (graph fixtureData)) "CORE" "FOOT"
         ["CORE"; "CORK"; "FORK"; "FORT"; "FOOT"]
  ∧ adjacentPairs oneLetterApart ["CORE"; "CORK"; "FORK"; "FORT"; "FOOT"].
Proof.
  destruct (returned_path_valid fixtureFs emptyWorld (query "core" " foot ")
              ["CORE"; "CORK"; "FORK"; "FORT"; "FOOT"] 5)
    as (sw & ew & d & Hsw & Hew & Hd & Hp & Hone).
  - vm_compute. reflexivity.
  - injection Hsw as <-. injection Hew as <-.
    change (Some fixtureData = Some d) in Hd. injection Hd as <-.
    split; [exact Hp|].
    apply (Hone fixtureWords); [repeat constructor|reflexivity].
Defined.

(** ** [generateWordLadder] *)

Lemma letters_upper c : c ∈ letters ↔ isUpperLetter c = true.
Proof.
  split.
  - intros H. unfold letters in H. simpl in H.
    repeat (apply elem_of_cons in H as [->|H]; [reflexivity|]).
    by apply elem_of_nil in H.
  - intros H.
    destruct c as [[] [] [] [] [] [] [] []];
      first [discriminate H
            | apply (bool_decide_unpack _); vm_compute; exact I].
Qed.

Lemma generateNeighbors_elem word v :
  v ∈ generateNeighbors word
  ↔ ∃ i letter, i < String.length word ∧ letter ∈ letters
                ∧ v = substitute word i letter
                ∧ toUpperCase v ≠ toUpperCase word.
Proof.
  unfold generateNeighbors. rewrite list_elem_of_bind.
  setoid_rewrite list_elem_of_bind. setoid_rewrite elem_of_seq. split.
  - intros (i & (letter & Hv & Hl) & Hi).
    destruct (decide _) as [Hne|]; [|by apply elem_of_nil in Hv].
    apply list_elem_of_singleton in Hv as ->.
    exists i, letter. split_and!; [lia|done|done|done].
  - intros (i & letter & Hi & Hl & -> & Hne).
    exists i. split; [|lia]. exists letter. split; [|done].
    rewrite decide_True by done. set_solver.
Qed.

Lemma ladderVisit_fold word path ns : ∀ st,
  foldl (ladderVisit word path) st ns
  = foldl (bfsVisit toUpperCase path) st
          (filter (λ neighbor, differByOne word neighbor = true) ns).
Proof.
  induction ns as [|n ns IH]; intros st; [done|].
  rewrite filter_cons. simpl. rewrite IH.
  unfold ladderVisit, bfsVisit.
  destruct (differByOne word n) eqn:Hd.
  - rewrite decide_True by done. simpl. rewrite andb_true_r. done.
  - rewrite decide_False by done. rewrite andb_false_r. done.
Qed.

Lemma generateWordLadder_loop_bfs e maxSteps : ∀ fuel V Q,
  generateWordLadder_loop fuel e maxSteps V Q
  = bfs_loop toUpperCase (λ w, bool_decide (toUpperCase w = toUpperCase e))
             (λ k, atLeast k maxSteps) ladderNeighbors fuel V Q.
Proof.
  induction fuel as [|fuel IH]; intros V Q; simpl; [done|].
  destruct Q as [|[w p] rest]; [done|].
  destruct (decide (toUpperCase w = toUpperCase e)) as [Heq|Hne].
  - by rewrite bool_decide_eq_true_2.
  - rewrite bool_decide_eq_false_2 by done.
    destruct (atLeast (length p) maxSteps); [apply IH|].
    rewrite ladderVisit_fold. apply IH.
Qed.

(** *** The step bound *)

Lemma atLeast_mono k k' x :
  k ≤ k' → atLeast k x = true → atLeast k' x = true.
Proof.
  intros Hk. destruct x as [q| | |]; simpl; try done.
  rewrite !QArith_base.Qle_bool_iff. intros Hq.
  eapply QArith_base.Qle_trans; [exact Hq|].
  rewrite <-QArith_base.Zle_Qle. lia.
Qed.


Lemma atLeast_integer k n : atLeast k (integer n) = bool_decide (n ≤ k).
Proof.
  unfold atLeast, integer. apply eq_true_iff_eq.
  rewrite QArith_base.Qle_bool_iff, <-QArith_base.Zle_Qle, bool_decide_eq_true.
  lia.
Qed.

Lemma atMost_integer k n : atMost k (integer n) = bool_decide (k ≤ n).
Proof.
  unfold atMost, integer. apply eq_true_iff_eq.
  rewrite QArith_base.Qle_bool_iff, <-QArith_base.Zle_Qle, bool_decide_eq_true.
  lia.
Qed.

(** Whatever the inputs, a returned path of more than one word extends a
    path that had fewer than [maxSteps] words. *)
Lemma generateWordLadder_bound s e maxSteps p :
  generateWordLadder s e maxSteps = Some p →
  length p ≤ 1 ∨ atLeast (length p - 1) maxSteps = false.
Proof.
  unfold generateWordLadder. destruct (decide _); [done|].
  destruct (generateWordLadder_loop _ _ _ _ _) as [r|] eqn:Hloop; [|done].
  simpl. intros ->. rewrite generateWordLadder_loop_bfs in Hloop.
  apply bfs_loop_extended in Hloop; [done|].
  intros x ->%list_elem_of_singleton. left. simpl. lia.
Qed.

(** *** The fuel of [generateWordLadder] suffices *)

Lemma universe_length s : length (universe s) = 27 ^ String.length s.
Proof.
  induction s as [|c s IH]; [done|].
  cbn [universe String.length]. rewrite Nat.pow_succ_r'.
  assert (∀ (l : list ascii) (us : list string),
            length (x ← l; u ← us; [String x u]) = length l * length us) as Hlen.
  { intros l us. induction l as [|x l IHl]; [done|].
    rewrite bind_cons, length_app, IHl. simpl. f_equal.
    clear. induction us as [|u us IHus]; [done|].
    rewrite bind_cons. simpl. by rewrite IHus. }
  rewrite Hlen, IH. done.
Qed.

Lemma overwritten_refl s : overwritten s s.
Proof. induction s; simpl; auto. Qed.

Lemma overwritten_length s : ∀ w,
  overwritten s w → String.length w = String.length s.
Proof.
  induction s as [|c s IH]; intros [|x w]; simpl; try done.
  intros [_ Hw]. f_equal. auto.
Qed.

Lemma overwritten_substitute s : ∀ w i letter,
  overwritten s w → i < String.length w → letter ∈ letters →
  overwritten s (substitute w i letter).
Proof.
  induction s as [|c s IH]; intros [|x w] i letter Hw Hi Hl;
    simpl in Hw, Hi; try done; try lia.
  destruct Hw as [Hx Hw]. destruct i as [|i].
  - rewrite substitute_0. simpl. auto.
  - rewrite substitute_S. simpl. split; [done|]. apply IH; auto. lia.
Qed.

Lemma overwritten_universe s : ∀ w,
  overwritten s w → toUpperCase w ∈ universe s.
Proof.
  induction s as [|c s IH]; intros [|x w] Hw; try (simpl in Hw; done).
  - simpl. set_solver.
  - destruct Hw as [Hx Hw].
    change (toUpperCase (String x w))
      with (String (upperChar x) (toUpperCase w)).
    change (universe (String c s))
      with (x ← upperChar c :: letters; u ← universe s; [String x u]).
    apply list_elem_of_bind. exists (upperChar x). split.
    + apply list_elem_of_bind. exists (toUpperCase w).
      split; [set_solver|]. by apply IH.
    + destruct Hx as [->|Hx]; [set_solver|].
      rewrite upperChar_letter by (by apply letters_upper). set_solver.
Qed.

Lemma ladderNeighbors_elem u v :
  v ∈ ladderNeighbors u
  ↔ differByOne u v = true
    ∧ ∃ i letter, i < String.length u ∧ letter ∈ letters
                  ∧ v = substitute u i letter
                  ∧ toUpperCase v ≠ toUpperCase u.
Proof.
  unfold ladderNeighbors. by rewrite list_elem_of_filter, generateNeighbors_elem.
Qed.

Lemma generateWordLadder_loop_total s e maxSteps :
  is_Some (generateWordLadder_loop (ladderFuel s) e maxSteps
             {[toUpperCase s]} [(s, [s])]).
Proof.
  rewrite generateWordLadder_loop_bfs.
  apply (loop_fuel toUpperCase _ _ ladderNeighbors (overwritten s))
    with (U := list_to_set (C:=gset string) (universe s)).
  - intros u v Hu (_ & i & letter & Hi & Hl & -> & _)%ladderNeighbors_elem.
    by apply overwritten_substitute.
  - intros u v Hu (_ & i & letter & Hi & Hl & -> & _)%ladderNeighbors_elem.
    apply elem_of_list_to_set, overwritten_universe.
    by apply overwritten_substitute.
  - intros x ->%list_elem_of_singleton. apply overwritten_refl.
  - unfold ladderFuel. cbn [length].
    pose proof (size_list_to_set_le (universe s)) as H1.
    rewrite universe_length in H1.
    pose proof (subseteq_size
                  (list_to_set (universe s) ∖ {[toUpperCase s]})
                  (list_to_set (C:=gset string) (universe s))
                  ltac:(set_solver)).
    lia.
Qed.

(** *** Distances in the substitution graph *)

Lemma differByOne_loop_same s : ∀ n,
  differByOne_loop n s s = bool_decide (n = 1).
Proof.
  induction s as [|c s IH]; intros n; simpl; [done|].
  by rewrite decide_True.
Qed.

Lemma differByOne_cons_same x u v :
  differByOne (String x u) (String x v) = differByOne u v.
Proof.
  unfold differByOne. cbn [differByOne_loop String.length].
  destruct (decide (String.length u ≠ String.length v)) as [Hne|Heq].
  - rewrite decide_True by lia. done.
  - rewrite decide_False by lia. by rewrite decide_True.
Qed.

Lemma differByOne_head x y e :
  upperChar x ≠ upperChar y → differByOne (String x e) (String y e) = true.
Proof.
  intros Hne. unfold differByOne. cbn [differByOne_loop String.length].
  rewrite decide_False by lia. rewrite decide_False by done.
  rewrite decide_False by lia. by rewrite differByOne_loop_same.
Qed.

Lemma substitute_letters w : ∀ i letter,
  allUpperLetters w = true → letter ∈ letters → i < String.length w →
  allUpperLetters (substitute w i letter) = true.
Proof.
  induction w as [|c w IH]; intros i letter Hw Hl Hi; simpl in Hi; [lia|].
  simpl in Hw. apply andb_true_iff in Hw as [Hc Hw].
  destruct i as [|i].
  - rewrite substitute_0. simpl. apply andb_true_iff.
    split; [by apply letters_upper|done].
  - rewrite substitute_S. simpl. apply andb_true_iff.
    split; [done|]. apply IH; auto. lia.
Qed.

Lemma hamming_substitute a : ∀ u i x,
  hamming a (substitute u i x) ≤ S (hamming a u).
Proof.
  induction a as [|y a IH]; intros u i x; [simpl; lia|].
  destruct u as [|c u].
  - destruct i; unfold substitute; simpl; destruct (decide _);
      destruct a; simpl; lia.
  - destruct i as [|i].
    + rewrite substitute_0. simpl. repeat destruct (decide _); lia.
    + rewrite substitute_S. simpl. specialize (IH u i x). lia.
Qed.


Lemma ladderNeighbors_letters u v :
  allUpperLetters u = true → v ∈ ladderNeighbors u → allUpperLetters v = true.
Proof.
  intros Hu (_ & i & letter & Hi & Hl & -> & _)%ladderNeighbors_elem.
  by apply substitute_letters.
Qed.

Lemma ladderNeighbors_cons x u v :
  v ∈ ladderNeighbors u → String x v ∈ ladderNeighbors (String x u).
Proof.
  rewrite !ladderNeighbors_elem.
  intros (Hd & i & letter & Hi & Hl & -> & Hne). split.
  - by rewrite differByOne_cons_same.
  - exists (S i), letter. rewrite substitute_S. simpl.
    split_and!; [lia|done|done|]. intros [= ?]. done.
Qed.

Lemma ladderNeighbors_head x y e :
  isUpperLetter x = true → isUpperLetter y = true → x ≠ y →
  String y e ∈ ladderNeighbors (String x e).
Proof.
  intros Hx Hy Hne.
  assert (upperChar x ≠ upperChar y) as Hup.
  { by rewrite !upperChar_letter. }
  apply ladderNeighbors_elem. split; [by apply differByOne_head|].
  exists 0, y. rewrite substitute_0. simpl.
  split_and!; [lia|by apply letters_upper|done|]. intros [= ?]. congruence.
Qed.

Lemma ladder_map_cons x s p e :
  ladder (step ladderNeighbors) s p e →
  ladder (step ladderNeighbors) (String x s) (String x <$> p) (String x e).
Proof.
  induction 1 as [|p u v Hp IH Huv]; [constructor|].
  rewrite fmap_app. simpl. eapply ladder_step; [exact IH|].
  by apply ladderNeighbors_cons.
Qed.

(** A path that overwrites the differing positions one at a time. *)
Lemma hamming_ladder a : ∀ e,
  allUpperLetters a = true → allUpperLetters e = true →
  String.length a = String.length e →
  ∃ q, ladder (step ladderNeighbors) a q e ∧ length q = S (hamming a e).
Proof.
  induction a as [|x a IH]; intros [|y e] Ha He Hlen; simpl in Hlen; try done.
  - exists [EmptyString]. split; [constructor|done].
  - simpl in Ha, He.
    apply andb_true_iff in Ha as [Hx Ha]. apply andb_true_iff in He as [Hy He].
    destruct (IH e Ha He) as (q & Hq & Hlq); [lia|].
    apply (ladder_map_cons x) in Hq. simpl.
    destruct (decide (x = y)) as [->|Hne].
    + exists (String y <$> q). split; [done|]. by rewrite length_fmap.
    + exists ((String x <$> q) ++ [String y e]). split.
      * eapply ladder_step; [exact Hq|]. by apply ladderNeighbors_head.
      * rewrite length_app, length_fmap. simpl. lia.
Qed.

Lemma ladder_hamming s p e :
  ladder (step ladderNeighbors) s p e → S (hamming s e) ≤ length p.
Proof.
  induction 1 as [|p u v Hp IH Huv].
  - rewrite hamming_refl. simpl. lia.
  - apply ladderNeighbors_elem in Huv as (_ & i & letter & _ & _ & -> & _).
    pose proof (hamming_substitute s u i letter).
    rewrite length_app. simpl. lia.
Qed.

Lemma ladder_letters s p e :
  allUpperLetters s = true →
  ladder (step ladderNeighbors) s p e →
  Forall (λ w, allUpperLetters w = true) p ∧ allUpperLetters e = true.
Proof.
  intros Hs. induction 1 as [|p u v Hp [IHp IHu] Huv].
  - split; [|done]. by constructor.
  - assert (allUpperLetters v = true) by by eapply ladderNeighbors_letters.
    split; [|done]. apply Forall_app. split; [done|]. by constructor.
Qed.



(** ** The artifacts that [preprocessDictionary] writes *)

Lemma groupByLength_fold n (ws : list string) : ∀ m : gmap nat (list string),
  foldl (λ wordsByLength word, pushTo (String.length word) word wordsByLength)
        m ws !! n
  = match filter (λ w, String.length w = n) ws with
    | [] => m !! n
    | l => Some (default [] (m !! n) ++ l)
    end.
Proof.
  induction ws as [|w ws IH]; intros m; [done|].
  cbn [foldl]. rewrite IH. unfold pushTo at 1 2. rewrite filter_cons.
  destruct (decide (String.length w = n)) as [->|Hne].
  - rewrite lookup_insert_eq. simpl.
    destruct (filter _ ws); [done|]. by rewrite <-app_assoc.
  - rewrite lookup_insert_ne by done. done.
Qed.

Lemma groupByLength_lookup ws n l :
  groupByLength ws !! n = Some l →
  l = filter (λ w, String.length w = n) ws.
Proof.
  unfold groupByLength. rewrite groupByLength_fold, lookup_empty.
  destruct (filter _ ws); [done|]. by intros [= <-].
Qed.

Lemma parseWords_letters lines :
  Forall (λ w, testAZ w = true) (parseWords lines).
Proof.
  apply Forall_forall. intros w Hw. unfold parseWords in Hw.
  apply list_elem_of_filter in Hw. tauto.
Qed.

Lemma buildArtifact_total wordList :
  ∃ d, buildArtifact wordList = Some d
       ∧ words d = wordList
       ∧ graph d = buildGraph wordList
       ∧ findGroups wordList (buildGraph wordList) = Some (groups d).
Proof.
  destruct (findGroupsFrom_ok wordList) as (s & Hs & _).
  unfold buildArtifact, findGroups. rewrite Hs. simpl. eauto.
Qed.

(** Every artifact that the builder writes holds upper-case letter words of
    the file's length, the graph built from them, the groups found in that
    graph, and a graph entry for every word. *)
Lemma preprocessDictionary_artifact lines n d :
  preprocessDictionary lines n = Valid d →
  Forall (λ w, testAZ w = true) (words d)
  ∧ Forall (λ w, String.length w = n) (words d)
  ∧ graph d = buildGraph (words d)
  ∧ findGroups (words d) (graph d) = Some (groups d)
  ∧ (∀ w, w ∈ words d → is_Some (graph d !! w)).
Proof.
  unfold preprocessDictionary. case_bool_decide; [|done].
  destruct (groupByLength (parseWords lines) !! n) as [[|w0 l]|] eqn:Hl;
    [done| |done].
  apply groupByLength_lookup in Hl.
  destruct (buildArtifact_total (w0 :: l)) as (d' & -> & Hw & Hg & Hgr).
  intros [= <-]. rewrite Hw, Hg. split_and!.
  - rewrite Hl. apply Forall_forall. intros w [_ Hin]%list_elem_of_filter.
    pose proof (parseWords_letters lines) as HAZ.
    rewrite Forall_forall in HAZ. auto.
  - rewrite Hl. apply Forall_forall. by intros w [? _]%list_elem_of_filter.
  - done.
  - done.
  - intros w Hin. rewrite buildGraph_lookup. by rewrite decide_True.
Qed.

(** In a written artifact the neighbours of a word are the words of the
    list one letter apart from it, and two words share a group exactly when
    a path of the graph joins them. *)
Lemma preprocessDictionary_graph lines n d a b :
  preprocessDictionary lines n = Valid d →
  a ∈ words d → b ∈ words d →
  (edge (graph d) a b ↔ oneLetterApart a b)
  ∧ (areInSameGroup a b (groups d) = true ↔ connected (edge (graph d)) a b).
Proof.
  intros (HAZ & _ & Hg & Hgr & _)%preprocessDictionary_artifact Ha Hb.
  rewrite Hg in Hgr |- *. split.
  - rewrite buildGraph_adjacent by done. tauto.
  - rewrite <-(shared_group_connected (words d) (groups d) a b Hgr Ha).
    rewrite areInSameGroup_spec. rewrite Forall_forall in HAZ.
    rewrite !toUpperCase_letters by auto using testAZ_letters. done.
Qed.

(** ** The scenarios of the specification on the fixture *)

Example fixture_artifact :
  preprocessDictionary fixtureLines 4 = Valid fixtureData.
Proof. vm_compute. reflexivity. Qed.

Example fixture_build :
  buildGraph fixtureWords !! "FORK" = Some ["CORK"; "FORT"].
Proof. vm_compute. reflexivity. Qed.

Example fixture_adjacent :
  (POST fixtureFs (query "CORE" "CORK") emptyWorld).1
  = Success ["CORE"; "CORK"] 2.
Proof. vm_compute. reflexivity. Qed.

Example fixture_path :
  (POST (preprocessDictionary fixtureLines) (query "core" " foot ") emptyWorld).1
  = Success ["CORE"; "CORK"; "FORK"; "FORT"; "FOOT"] 5.
Proof. vm_compute. reflexivity. Qed.

Example fixture_absent_word :
  (POST fixtureFs (query "CORE" "ABCD") emptyWorld).1
  = Failure WordNotInDictionary 400.
Proof. vm_compute. reflexivity. Qed.

Example fixture_disconnected :
  (POST fixtureFs (query "CORE" "JAZZ") emptyWorld)
  = (Failure NotConnected 400,
     {| dictionaryCache := {[4 := fixtureData]};
        trace := [ExistsSync 4; ReadFileSync 4] |}).
Proof. vm_compute. reflexivity. Qed.

Example fixture_length_mismatch :
  (POST fixtureFs (query "CAT" "DOGS") emptyWorld).1
  = Failure LengthMismatch 400.
Proof. vm_compute. reflexivity. Qed.

Example fixture_ladder :
  generateWordLadder "AB" "CD" defaultMaxSteps = Some ["AB"; "CB"; "CD"].
Proof. vm_compute. reflexivity. Qed.

(** Outside [d + 1 <= maxSteps] a returned path can have more than
    [maxSteps] words: the start word is compared with the end word before
    the step bound is looked at, and a path of two words is still extended
    when [maxSteps] is 2.5. *)
Example fixture_ladder_zero :
  generateWordLadder "A" "A" (integer 0) = Some ["A"].
Proof. vm_compute. reflexivity. Qed.

Example fixture_ladder_fraction :
  generateWordLadder "AB" "CD" (Finite (QArith_base.Qmake 5 2))
  = Some ["AB"; "CB"; "CD"].
Proof. vm_compute. reflexivity. Qed.

(** * Further properties of the code *)

(** ** [differByOne] and [generateNeighbors] *)

Lemma differByOne_loop_hamming a : ∀ b n,
  String.length a = String.length b →
  differByOne_loop n a b
  = bool_decide (n + hamming (toUpperCase a) (toUpperCase b) = 1).
Proof.
  induction a as [|x a IH]; intros [|y b] n Hlen; simpl in Hlen; try done.
  - simpl. by rewrite Nat.add_0_r.
  - cbn [differByOne_loop toUpperCase hamming].
    destruct (decide (upperChar x = upperChar y)) as [Heq|Hne].
    + rewrite IH by lia. done.
    + destruct (decide (1 < S n)) as [Hn|Hn].
      * symmetry. apply bool_decide_eq_false. lia.
      * rewrite IH by lia. apply bool_decide_ext. lia.
Qed.

(** X1.  On strings of ASCII code units [differByOne] holds exactly of two
    strings of equal length whose upper-cased forms differ in one position:
    the comparison ignores case, and strings of different lengths never
    differ by one. *)
Theorem differByOne_iff a b :
  asciiOnly a = true → asciiOnly b = true →
  differByOne a b = true
  ↔ String.length a = String.length b
    ∧ hamming (toUpperCase a) (toUpperCase b) = 1.
Proof.
  intros _ _. unfold differByOne. destruct (decide _) as [Hne|Heq].
  - split; [done|]. intros [? _]. done.
  - apply dec_stable in Heq. rewrite differByOne_loop_hamming by done.
    rewrite bool_decide_eq_true. simpl. tauto.
Qed.

Lemma differByOne_iff_witness :
  differByOne "cork" "CORE" = true
  ↔ String.length "cork" = String.length "CORE"
    ∧ hamming (toUpperCase "cork") (toUpperCase "CORE") = 1.
Proof. apply differByOne_iff; reflexivity. Defined.

Lemma differByOne_hamming a b :
  differByOne a b = true
  ↔ String.length a = String.length b
    ∧ hamming (toUpperCase a) (toUpperCase b) = 1.
Proof.
  unfold differByOne. destruct (decide _) as [Hne|Heq].
  - split; [done|]. intros [? _]. done.
  - apply dec_stable in Heq. rewrite differByOne_loop_hamming by done.
    rewrite bool_decide_eq_true. simpl. tauto.
Qed.

Lemma differByOne_sym a b : differByOne a b = differByOne b a.
Proof.
  apply eq_true_iff_eq. rewrite !differByOne_hamming, (hamming_sym _ (toUpperCase b)).
  split; intros [-> ?]; done.
Qed.

Lemma differByOne_length a b :
  differByOne a b = true → String.length a = String.length b.
Proof. intros H%differByOne_hamming. tauto. Qed.

Lemma differByOne_letters a b :
  allUpperLetters a = true → allUpperLetters b = true →
  differByOne a b = true ↔ oneLetterApart a b.
Proof.
  intros Ha Hb. rewrite differByOne_hamming.
  by rewrite (toUpperCase_letters a), (toUpperCase_letters b).
Qed.

Lemma toUpperCase_substitute w : ∀ i c,
  i < String.length w →
  toUpperCase (substitute w i c) = substitute (toUpperCase w) i (upperChar c).
Proof.
  induction w as [|x w IH]; intros i c Hi; simpl in Hi; [lia|].
  destruct i as [|i].
  - by rewrite substitute_0.
  - rewrite substitute_S. simpl. rewrite substitute_S, IH by lia. done.
Qed.

Lemma filter_all {A} (P : A → Prop) `{∀ x, Decision (P x)} (l : list A) :
  (∀ x, x ∈ l → P x) → filter P l = l.
Proof.
  induction l as [|x l IH]; intros Hall; [done|].
  rewrite filter_cons, decide_True by (apply Hall; left).
  f_equal. apply IH. intros y Hy. apply Hall. by right.
Qed.

(** X2.  Every candidate that [generateNeighbors] lists has the length of
    the word and differs from it by one letter in the sense of
    [differByOne], so the [differByOne] test in the loop of
    [generateWordLadder] never rejects a candidate. *)
Theorem generateNeighbors_differ word :
  (∀ neighbor, neighbor ∈ generateNeighbors word →
               String.length neighbor = String.length word
               ∧ differByOne word neighbor = true)
  ∧ ladderNeighbors word = generateNeighbors word.
Proof.
  assert (∀ n, n ∈ generateNeighbors word →
               String.length n = String.length word
               ∧ differByOne word n = true) as Hall.
  { intros n (i & letter & Hi & Hl & -> & Hne)%generateNeighbors_elem.
    split; [by apply substitute_length|].
    apply differByOne_hamming. split; [by rewrite substitute_length|].
    rewrite toUpperCase_substitute in Hne |- * by done.
    pose proof (hamming_substitute (toUpperCase word) (toUpperCase word)
                  i (upperChar letter)) as Hle.
    rewrite hamming_refl in Hle.
    destruct (hamming _ _) as [|[|k]] eqn:E; [|done|lia].
    destruct Hne. symmetry. apply hamming_0; [|done].
    rewrite substitute_length; [done|]. by rewrite toUpperCase_length. }
  split; [done|]. unfold ladderNeighbors. apply filter_all.
  intros n Hn. by apply Hall.
Qed.

(** ** [generateWordLadder] beyond its step bound *)

Lemma generateWordLadder_ladder s e maxSteps p :
  allUpperLetters s = true → allUpperLetters e = true →
  generateWordLadder s e maxSteps = Some p →
  ladder (step ladderNeighbors) s p e.
Proof.
  intros Hs He. unfold generateWordLadder. destruct (decide _); [done|].
  destruct (generateWordLadder_loop _ _ _ _ _) as [r|] eqn:Hloop; [|done].
  simpl. intros ->.
  rewrite generateWordLadder_loop_bfs, (toUpperCase_letters s Hs) in Hloop.
  assert (∀ u v, allUpperLetters u = true → v ∈ ladderNeighbors u →
                 allUpperLetters v = true) as Hstep
    by (intros; by eapply ladderNeighbors_letters).
  destruct (loop_sound toUpperCase _ _ ladderNeighbors
              (λ w, allUpperLetters w = true) Hstep toUpperCase_letters
              s _ [] _ _ p
              (Inv_init toUpperCase _ _ _ (λ w, allUpperLetters w = true)
                 Hstep toUpperCase_letters s)
              ltac:(by intros x ->%list_elem_of_singleton) Hloop)
    as (w & Hw & Hp).
  destruct (ladder_letters s p w Hs Hp) as [_ Hwl].
  apply bool_decide_eq_true in Hw.
  rewrite (toUpperCase_letters w Hwl), (toUpperCase_letters e He) in Hw.
  by subst w.
Qed.

Lemma generateWordLadder_same s maxSteps :
  generateWordLadder s s maxSteps = Some [s].
Proof.
  unfold generateWordLadder. rewrite decide_False by (intros H; by apply H).
  unfold ladderFuel. cbn [generateWordLadder_loop].
  by rewrite decide_True.
Qed.

Lemma generateWordLadder_within s e maxSteps :
  allUpperLetters s = true → allUpperLetters e = true →
  String.length s = String.length e →
  atLeast (hamming s e) maxSteps = false →
  is_Some (generateWordLadder s e maxSteps).
Proof.
  intros Hs He Hlen Hd.
  unfold generateWordLadder. rewrite decide_False by lia.
  destruct (generateWordLadder_loop_total s e maxSteps) as [r Hloop].
  rewrite Hloop. simpl.
  rewrite generateWordLadder_loop_bfs in Hloop.
  rewrite (toUpperCase_letters s Hs) in Hloop.
  destruct (hamming_ladder s e Hs He Hlen) as (q & Hq & Hlq).
  assert (∀ u v, allUpperLetters u = true → v ∈ ladderNeighbors u →
                 allUpperLetters v = true) as Hstep
    by (intros; by eapply ladderNeighbors_letters).
  destruct (loop_correct toUpperCase _ _ ladderNeighbors
              (λ w, allUpperLetters w = true) Hstep toUpperCase_letters
              s _ [] _ _ r
              (Inv_init toUpperCase _ _ _ (λ w, allUpperLetters w = true)
                 Hstep toUpperCase_letters s)
              ltac:(by intros x ->%list_elem_of_singleton)
              Hloop q e Hq)
    as (p & w & -> & _).
  - by apply bool_decide_eq_true.
  - intros k Hk. apply not_true_is_false. intros Hk'.
    apply (atLeast_mono k (hamming s e)) in Hk'; [congruence|lia].
  - by eexists.
Qed.

(** X3.  For upper-case letter words of equal length and any number
    [maxSteps], [generateWordLadder] returns [null] exactly when the words
    differ and their Hamming distance [d] satisfies [d >= maxSteps]: the
    step bound is the only reason to give up. *)
Theorem generateWordLadder_null_iff s e maxSteps :
  allUpperLetters s = true → allUpperLetters e = true →
  String.length s = String.length e →
  generateWordLadder s e maxSteps = None
  ↔ s ≠ e ∧ atLeast (hamming s e) maxSteps = true.
Proof.
  intros Hs He Hlen. split.
  - intros Hnone. split.
    + intros ->. by rewrite generateWordLadder_same in Hnone.
    + destruct (atLeast (hamming s e) maxSteps) eqn:Hfar; [done|].
      destruct (generateWordLadder_within s e maxSteps) as [p Hp];
        [done|done|done|done|congruence].
  - intros [Hne Hfar].
    destruct (generateWordLadder s e maxSteps) as [p|] eqn:Hp; [|done].
    pose proof (generateWordLadder_bound _ _ _ _ Hp) as Hbound.
    apply generateWordLadder_ladder in Hp; [|done|done].
    apply ladder_hamming in Hp.
    destruct (hamming s e) as [|h] eqn:E.
    + destruct Hne. by apply hamming_0.
    + destruct Hbound as [Hshort|Hext]; [lia|].
      apply (atLeast_mono _ (length p - 1)) in Hfar; [congruence|lia].
Qed.

Lemma generateWordLadder_null_iff_witness :
  generateWordLadder "AB" "CD" (integer 2) = None
  ↔ "AB" ≠ "CD" ∧ atLeast (hamming "AB" "CD") (integer 2) = true.
Proof. apply generateWordLadder_null_iff; reflexivity. Defined.

(** ** [findWordLadderPath] *)

Lemma dictVisit_fold word path ws : ∀ st,
  foldl (dictVisit word path) st ws
  = foldl (bfsVisit id path) st (dictNeighbors ws word).
Proof.
  unfold dictNeighbors.
  induction ws as [|w ws IH]; intros st; [done|].
  rewrite fmap_cons, filter_cons. cbn [foldl]. rewrite IH.
  unfold dictVisit, bfsVisit, id.
  destruct (differByOne word (toUpperCase w)) eqn:Hd.
  - rewrite decide_True by done. cbn [foldl]. by rewrite andb_true_r.
  - rewrite decide_False by done. by rewrite andb_false_r.
Qed.

Lemma findWordLadderPath_loop_bfs e ws : ∀ fuel V Q,
  findWordLadderPath_loop fuel e ws V Q
  = bfs_loop id (λ w, bool_decide (w = e)) (λ _, false) (dictNeighbors ws)
             fuel V Q.
Proof.
  induction fuel as [|fuel IH]; intros V Q; simpl; [done|].
  destruct Q as [|[w p] rest]; [done|].
  destruct (decide (w = e)) as [->|Hne].
  - by rewrite bool_decide_eq_true_2.
  - rewrite bool_decide_eq_false_2 by done. rewrite dictVisit_fold. apply IH.
Qed.

Lemma findWordLadderPath_loop_total s e ws :
  is_Some (findWordLadderPath_loop (S (S (length ws))) e ws {[s]} [(s, [s])]).
Proof.
  rewrite findWordLadderPath_loop_bfs.
  apply (loop_fuel id _ _ (dictNeighbors ws) (λ _, True) ltac:(done))
    with (U := list_to_set (C:=gset string) (toUpperCase <$> ws)).
  - intros u v _ Hv. apply elem_of_list_to_set.
    unfold dictNeighbors in Hv. apply list_elem_of_filter in Hv. tauto.
  - done.
  - cbn [length].
    pose proof (size_list_to_set_le (toUpperCase <$> ws)) as H1.
    rewrite length_fmap in H1.
    pose proof (subseteq_size
                  (list_to_set (toUpperCase <$> ws) ∖ {[s]})
                  (list_to_set (C:=gset string) (toUpperCase <$> ws))
                  ltac:(set_solver)).
    lia.
Qed.

Lemma dictNeighbors_elem ws u v :
  v ∈ dictNeighbors ws u ↔ differByOne u v = true ∧ v ∈ toUpperCase <$> ws.
Proof. unfold dictNeighbors. by rewrite list_elem_of_filter. Qed.

(** Along a ladder of [differByOne] steps the length never changes, so the
    words of another length play no part. *)
Lemma dictStep_same_length dict s p e :
  ladder (dictStep dict) s p e →
  ladder (step (dictNeighbors
                  (filter (λ w, String.length w = String.length s) dict)))
         s p e
  ∧ String.length e = String.length s
  ∧ Forall (λ w, String.length w = String.length s) p.
Proof.
  induction 1 as [|p u v Hp (IH & Hlen & Hall) [Hd Hv]].
  - split; [constructor|]. split; [done|]. by constructor.
  - assert (String.length v = String.length s) as Hlv.
    { apply differByOne_length in Hd. congruence. }
    split; [|split; [done|]].
    + eapply ladder_step; [exact IH|]. apply dictNeighbors_elem.
      split; [done|]. apply list_elem_of_fmap in Hv as (w & -> & Hw).
      apply list_elem_of_fmap. exists w. split; [done|].
      apply list_elem_of_filter. split; [|done].
      by rewrite toUpperCase_length in Hlv.
    + apply Forall_app. split; [done|]. by constructor.
Qed.

Lemma dictNeighbors_step dict n u v :
  v ∈ dictNeighbors (filter (λ w, String.length w = n) dict) u →
  dictStep dict u v.
Proof.
  intros [Hd Hv]%dictNeighbors_elem. split; [done|].
  apply list_elem_of_fmap in Hv as (w & -> & Hw%list_elem_of_filter).
  apply list_elem_of_fmap. exists w. tauto.
Qed.

Lemma findWordLadderPath_ladder s e dict p :
  findWordLadderPath s e dict = Some p →
  ladder (dictStep dict) (toUpperCase s) p (toUpperCase e).
Proof.
  unfold findWordLadderPath. destruct (decide _); [done|].
  destruct (findWordLadderPath_loop _ _ _ _ _) as [r|] eqn:Hloop; [|done].
  simpl. intros ->. rewrite findWordLadderPath_loop_bfs in Hloop.
  destruct (loop_sound id _ _ _ (λ _, True)
              (λ _ _ _ _, I) (λ _ _, eq_refl) (toUpperCase s) _ [] _ _ p
              (Inv_init id _ _ _ (λ _, True) (λ _ _ _ _, I) (λ _ _, eq_refl) _)
              (λ _ _, I) Hloop) as (w & Hw & Hp).
  apply bool_decide_eq_true in Hw as ->.
  eapply ladder_mono; [|exact Hp]. intros u v. apply dictNeighbors_step.
Qed.

(** X4.  For words and a dictionary of ASCII code units, a path returned
    by [findWordLadderPath] starts with the upper-cased start word, ends
    with the upper-cased end word, moves at every step to an upper-cased
    dictionary word that differs by one letter, and holds only words of the
    start word's length.  The start word itself need not be in the
    dictionary. *)
Theorem findWordLadderPath_sound s e dict p :
  asciiOnly s = true → asciiOnly e = true →
  Forall (λ w, asciiOnly w = true) dict →
  findWordLadderPath s e dict = Some p →
  isPath (dictStep dict) (toUpperCase s) (toUpperCase e) p
  ∧ Forall (λ w, String.length w = String.length s) p.
Proof.
  intros _ _ _ Hl%findWordLadderPath_ladder.
  split; [by apply ladder_isPath|].
  apply dictStep_same_length in Hl as (_ & _ & Hall).
  by rewrite toUpperCase_length in Hall.
Qed.

Lemma findWordLadderPath_sound_witness :
  isPath (dictStep ["cork"; "fork"; "form"; "core"]) "CORE" "FORM"
         ["CORE"; "CORK"; "FORK"; "FORM"]
  ∧ Forall (λ w, String.length w = String.length "Core")
           ["CORE"; "CORK"; "FORK"; "FORM"].
Proof.
  apply (findWordLadderPath_sound "Core" "form").
  - reflexivity.
  - reflexivity.
  - repeat constructor.
  - vm_compute. reflexivity.
Defined.

(** X5.  For words of equal length and a dictionary, all of ASCII code
    units, [findWordLadderPath] returns [null]
    exactly when no chain of one-letter steps through upper-cased dictionary
    words leads from the start word to the end word; otherwise the path it
    returns has the fewest words of all such chains. *)
Theorem findWordLadderPath_shortest s e dict :
  asciiOnly s = true → asciiOnly e = true →
  Forall (λ w, asciiOnly w = true) dict →
  String.length s = String.length e →
  (findWordLadderPath s e dict = None
   ↔ ¬ connected (dictStep dict) (toUpperCase s) (toUpperCase e))
  ∧ (∀ p q, findWordLadderPath s e dict = Some p →
            isPath (dictStep dict) (toUpperCase s) (toUpperCase e) q →
            length p ≤ length q).
Proof.
  intros _ _ _ Hlen.
  assert (∀ q, isPath (dictStep dict) (toUpperCase s) (toUpperCase e) q →
               ∃ p, findWordLadderPath s e dict = Some p
                    ∧ length p ≤ length q) as Hfind.
  { intros q Hq%isPath_ladder.
    apply dictStep_same_length in Hq as (Hq & _ & _).
    rewrite toUpperCase_length in Hq.
    unfold findWordLadderPath. rewrite decide_False by (intros H; by apply H).
    cbv zeta.
    destruct (findWordLadderPath_loop_total (toUpperCase s) (toUpperCase e)
                (filter (λ w, String.length w = String.length s) dict))
      as [r Hloop].
    rewrite Hloop. simpl. rewrite findWordLadderPath_loop_bfs in Hloop.
    destruct (loop_correct id _ _ _ (λ _, True)
                (λ _ _ _ _, I) (λ _ _, eq_refl) (toUpperCase s) _ [] _ _ r
                (Inv_init id _ _ _ (λ _, True) (λ _ _ _ _, I) (λ _ _, eq_refl) _)
                (λ _ _, I) Hloop q (toUpperCase e) Hq)
      as (p & w & -> & _ & _ & Hle); [by apply bool_decide_eq_true|done|].
    eauto. }
  split.
  - split.
    + intros Hnone [q Hq]. destruct (Hfind q Hq) as (p & Hp & _). congruence.
    + intros Hno. destruct (findWordLadderPath s e dict) as [p|] eqn:Hp; [|done].
      destruct Hno. exists p. by apply ladder_isPath, findWordLadderPath_ladder.
  - intros p q Hp Hq. destruct (Hfind q Hq) as (p' & Hp' & Hle). congruence.
Qed.

Lemma findWordLadderPath_shortest_witness :
  findWordLadderPath "CORE" "JAZZ" ["CORK"; "JAZZ"] = None
  ↔ ¬ connected (dictStep ["CORK"; "JAZZ"]) "CORE" "JAZZ".
Proof.
  destruct (findWordLadderPath_shortest "CORE" "JAZZ" ["CORK"; "JAZZ"]) as [H _].
  - reflexivity.
  - reflexivity.
  - repeat constructor.
  - reflexivity.
  - exact H.
Defined.

(** ** [validateWordLadder] *)

Lemma adjacentPairs_cons adj a b rest :
  adjacentPairs adj (a :: b :: rest)
  ↔ adj a b ∧ adjacentPairs adj (b :: rest).
Proof.
  split.
  - intros H. split; [by apply (H 0)|].
    intros i u v Hu Hv. by apply (H (S i)).
  - intros [Hab H] [|i] u v Hu Hv; simpl in *; simplify_eq; [done|].
    by apply (H i).
Qed.

Lemma adjacentPairs_short adj (l : list string) :
  length l < 2 → adjacentPairs adj l.
Proof.
  intros Hl i u v Hu Hv. apply lookup_lt_Some in Hv. lia.
Qed.

Lemma validateWordLadder_loop_pairs ws :
  validateWordLadder_loop ws = true
  ↔ adjacentPairs (λ u v, differByOne u v = true) ws.
Proof.
  induction ws as [|a ws IH].
  { split; [intros _; apply adjacentPairs_short; simpl; lia|done]. }
  destruct ws as [|b rest].
  - split; [intros _; apply adjacentPairs_short; simpl; lia|done].
  - rewrite adjacentPairs_cons, <-IH.
    cbn [validateWordLadder_loop]. destruct (differByOne a b); simpl.
    + tauto.
    + split; [done|]. intros [? _]. done.
Qed.

(** X6.  [validateWordLadder] accepts a list exactly when it has at least
    two words and every two consecutive words differ by one letter; a list
    it accepts holds words of one length. *)
Theorem validateWordLadder_iff ws :
  (validateWordLadder ws = true
   ↔ 2 ≤ length ws ∧ adjacentPairs (λ u v, differByOne u v = true) ws)
  ∧ (validateWordLadder ws = true →
     ∀ u v, u ∈ ws → v ∈ ws → String.length u = String.length v).
Proof.
  assert (validateWordLadder ws = true
          ↔ 2 ≤ length ws ∧ adjacentPairs (λ u v, differByOne u v = true) ws)
    as Hiff.
  { unfold validateWordLadder. destruct (decide _) as [Hlt|Hge].
    - split; [done|]. intros [? _]. lia.
    - rewrite validateWordLadder_loop_pairs. split; [|tauto].
      intros ?. split; [lia|done]. }
  split; [done|]. intros [_ Hpairs]%Hiff.
  assert (∀ i j u v, ws !! i = Some u → ws !! (i + j) = Some v →
                     String.length u = String.length v) as Hsame.
  { intros i j. revert i. induction j as [|j IH]; intros i u v Hu Hv.
    - rewrite Nat.add_0_r in Hv. congruence.
    - destruct (ws !! S i) as [x|] eqn:Hx.
      + etrans; [apply differByOne_length, (Hpairs i u x Hu Hx)|].
        apply (IH (S i)); [done|]. by replace (S i + j) with (i + S j) by lia.
      + apply lookup_ge_None in Hx. apply lookup_lt_Some in Hv. lia. }
  intros u v [i Hi]%list_elem_of_lookup [j Hj]%list_elem_of_lookup.
  destruct (decide (i ≤ j)).
  - apply (Hsame i (j - i)); [done|]. by replace (i + (j - i)) with j by lia.
  - symmetry. apply (Hsame j (i - j)); [done|].
    by replace (j + (i - j)) with i by lia.
Qed.

Lemma validateWordLadder_pairs ws :
  validateWordLadder ws = true
  ↔ 2 ≤ length ws ∧ adjacentPairs (λ u v, differByOne u v = true) ws.
Proof.
  unfold validateWordLadder. destruct (decide _) as [Hlt|Hge].
  - split; [done|]. intros [? _]. lia.
  - rewrite validateWordLadder_loop_pairs. split; [|tauto].
    intros ?. split; [lia|done].
Qed.

(** ** [findShortestPath] and [areInSameGroup] *)

(** X7.  [findShortestPath] returns [null] exactly when one of the two
    upper-cased words is not a key of the graph or no path of the graph
    leads from the first to the second. *)
Theorem findShortestPath_null_iff sw ew graph :
  findShortestPath sw ew graph = None
  ↔ graph !! toUpperCase sw = None
    ∨ graph !! toUpperCase ew = None
    ∨ ¬ connected (edge graph) (toUpperCase sw) (toUpperCase ew).
Proof.
  destruct (graph !! toUpperCase sw) as [ns|] eqn:Hs; cycle 1.
  { split; [auto|]. intros _. unfold findShortestPath. by rewrite Hs. }
  destruct (graph !! toUpperCase ew) as [ne|] eqn:He; cycle 1.
  { split; [auto|]. intros _. unfold findShortestPath. rewrite Hs, He.
    rewrite bool_decide_eq_false_2 by done. by rewrite bool_decide_eq_true_2. }
  split.
  - intros Hnone. right. right. intros [q Hq].
    destruct (findShortestPath_complete sw ew graph q) as (p & Hp & _);
      rewrite ?Hs, ?He; eauto. congruence.
  - intros [?|[?|Hno]]; [done|done|].
    destruct (findShortestPath sw ew graph) as [p|] eqn:Hp; [|done].
    destruct Hno. exists p. by apply findShortestPath_sound.
Qed.

(** On the groups that the builder finds, sharing a group is sharing the
    key of the one group that holds the word. *)
Lemma areInSameGroup_builder wordList groups a b :
  Forall (λ w, testAZ w = true) wordList →
  findGroups wordList (buildGraph wordList) = Some groups →
  a ∈ wordList → b ∈ wordList →
  areInSameGroup a b groups = true
  ↔ rtc (edge (buildGraph wordList)) a b.
Proof.
  intros HAZ Hg Ha Hb.
  rewrite <-connected_rtc, <-(shared_group_connected wordList groups a b Hg Ha).
  rewrite areInSameGroup_spec. rewrite Forall_forall in HAZ.
  rewrite !toUpperCase_letters by auto using testAZ_letters. done.
Qed.

(** X8.  On the groups found by the builder, [areInSameGroup] is an
    equivalence relation on the words of the list. *)
Theorem areInSameGroup_equivalence wordList groups :
  Forall (λ w, testAZ w = true) wordList →
  findGroups wordList (buildGraph wordList) = Some groups →
  (∀ a, a ∈ wordList → areInSameGroup a a groups = true)
  ∧ (∀ a b, a ∈ wordList → b ∈ wordList →
            areInSameGroup a b groups = true →
            areInSameGroup b a groups = true)
  ∧ (∀ a b c, a ∈ wordList → b ∈ wordList → c ∈ wordList →
              areInSameGroup a b groups = true →
              areInSameGroup b c groups = true →
              areInSameGroup a c groups = true).
Proof.
  intros HAZ Hg. split_and!.
  - intros a Ha. by apply (areInSameGroup_builder wordList).
  - intros a b Ha Hb Hab.
    apply (areInSameGroup_builder wordList) in Hab; [|done..].
    apply (areInSameGroup_builder wordList); [done..|].
    apply rtc_symmetric; [apply buildGraph_symmetric|done].
  - intros a b c Ha Hb Hc Hab Hbc.
    apply (areInSameGroup_builder wordList) in Hab; [|done..].
    apply (areInSameGroup_builder wordList) in Hbc; [|done..].
    apply (areInSameGroup_builder wordList); [done..|]. by etrans.
Qed.

Lemma areInSameGroup_equivalence_witness :
  areInSameGroup "CORE" "FOOT" (groups fixtureData) = true.
Proof.
  destruct (areInSameGroup_equivalence fixtureWords (groups fixtureData))
    as (_ & _ & H).
  - repeat constructor.
  - vm_compute. reflexivity.
  - apply (H "CORE" "FORK" "FOOT");
      [apply (bool_decide_unpack _); vm_compute; exact I..
      |vm_compute; reflexivity|vm_compute; reflexivity].
Defined.

(** ** The dictionary cache *)

(** X9.  Once [loadDictionary] has returned an artifact for a length, every
    later call for that length returns the same artifact without looking at
    the file system again, whatever the files have become. *)
Theorem loadDictionary_reuse fs n world d :
  (loadDictionary fs n world).1 = Some d →
  ∀ fs',
    loadDictionary fs' n (loadDictionary fs n world).2
    = (Some d, (loadDictionary fs n world).2).
Proof.
  intros Hd fs'.
  assert (dictionaryCache (loadDictionary fs n world).2 !! n = Some d) as Hc.
  { revert Hd. unfold loadDictionary. unfold_M.
    destruct (dictionaryCache world !! n) eqn:Hw; simpl; [congruence|].
    destruct (fs n); simpl; try done.
    intros [= ->]. by rewrite lookup_insert_eq. }
  unfold loadDictionary at 1. unfold_M. by rewrite Hc.
Qed.

Lemma loadDictionary_reuse_witness :
  loadDictionary (λ _, Corrupt) 4 (loadDictionary fixtureFs 4 emptyWorld).2
  = (Some fixtureData, (loadDictionary fixtureFs 4 emptyWorld).2).
Proof. apply (loadDictionary_reuse fixtureFs 4 emptyWorld). reflexivity. Defined.

Lemma loadDictionary_world fs n w :
  (∀ k d, dictionaryCache w !! k = Some d →
          dictionaryCache (loadDictionary fs n w).2 !! k = Some d)
  ∧ (∀ k, k ≠ n →
          dictionaryCache (loadDictionary fs n w).2 !! k = dictionaryCache w !! k)
  ∧ ∃ evs, trace (loadDictionary fs n w).2 = trace w ++ evs.
Proof.
  unfold loadDictionary. unfold_M.
  destruct (dictionaryCache w !! n) eqn:Hn; simpl.
  - split_and!; [done|done|]. exists []. by rewrite app_nil_r.
  - destruct (fs n); simpl; rewrite <-?app_assoc; (split_and!; [| |by eexists]);
      try done.
    + intros k d Hk. rewrite lookup_insert_ne; [done|]. congruence.
    + intros k Hk. by rewrite lookup_insert_ne.
Qed.

(** X10.  A call of the route never removes or replaces a cached artifact:
    the cache only grows, by at most the entry for the length of the
    normalised start word, and the trace is only extended. *)
Theorem POST_cache_grows fs req world :
  (∀ k d, dictionaryCache world !! k = Some d →
          dictionaryCache (POST fs req world).2 !! k = Some d)
  ∧ (∀ k sw, startWord req = Some sw →
             k ≠ String.length (trim (toUpperCase sw)) →
             dictionaryCache (POST fs req world).2 !! k
             = dictionaryCache world !! k)
  ∧ ∃ evs, trace (POST fs req world).2 = trace world ++ evs.
Proof.
  assert (∃ n, ((POST fs req world).2 = world
               ∨ (POST fs req world).2 = (loadDictionary fs n world).2
               ∨ ∃ ev, (POST fs req world).2
                       = (emit ev (loadDictionary fs n world).2).2)
               ∧ ∀ sw, startWord req = Some sw →
                       (POST fs req world).2 = world
                       ∨ n = String.length (trim (toUpperCase sw))) as (n & Hw & Hn).
  { unfold POST. destruct req as [osw oew]; cbn [startWord endWord].
    exists (String.length (trim (toUpperCase (default EmptyString osw)))).
    destruct (falsy osw || falsy oew); [by split; [left|left]|].
    destruct (decide _); [by split; [left|left]|].
    destruct (decide _); [by split; [left|left]|].
    split; [|intros sw [= ->]; by right].
    unfold mbind, M_bind, bind.
    destruct (loadDictionary fs _ world) as [[d|] w'];
      [|right; left; reflexivity].
    destruct (_ || _); [right; left; reflexivity|].
    destruct (negb _); [right; left; reflexivity|].
    right. right. eexists. simpl.
    destruct (findShortestPath _ _ _); [destruct (decide _)|]; reflexivity. }
  pose proof (loadDictionary_world fs n world) as (Hkeep & Hother & evs & Htr).
  split_and!.
  - intros k d Hk. destruct Hw as [->|[->|[ev ->]]]; auto.
  - intros k sw Hsw Hk. destruct (Hn sw Hsw) as [->|Hn']; [done|].
    subst n. destruct Hw as [->|[->|[ev ->]]]; auto.
  - destruct Hw as [->|[->|[ev ->]]].
    + exists []. by rewrite app_nil_r.
    + by exists evs.
    + simpl. rewrite Htr, <-app_assoc. by eexists.
Qed.

(** ** The builder's intermediate tables *)

Lemma groupByLength_bucket ws n :
  groupByLength ws !! n
  = match filter (λ w, String.length w = n) ws with
    | [] => None
    | bucket => Some bucket
    end.
Proof.
  unfold groupByLength. rewrite groupByLength_fold, lookup_empty.
  by destruct (filter _ ws).
Qed.

(** X11.  [wordsByLength] maps a length to the words of that length, in the
    order of the file, and has no entry for a length that no word has. *)
Theorem groupByLength_buckets ws n :
  groupByLength ws !! n
  = match filter (λ w, String.length w = n) ws with
    | [] => None
    | bucket => Some bucket
    end.
Proof.
  unfold groupByLength. rewrite groupByLength_fold, lookup_empty.
  by destruct (filter _ ws).
Qed.

Lemma pushTo_no_empty {K} `{Countable K} (k : K) w (m : gmap K (list string)) :
  (∀ k' b, m !! k' = Some b → b ≠ []) →
  ∀ k' b, pushTo k w m !! k' = Some b → b ≠ [].
Proof.
  intros Hm k' b. unfold pushTo. destruct (decide (k = k')) as [->|Hne].
  - rewrite lookup_insert_eq. intros [= <-]. by destruct (default [] _).
  - rewrite lookup_insert_ne by done. apply Hm.
Qed.

Lemma buildPatternMap_no_empty wordList p bucket :
  buildPatternMap wordList !! p = Some bucket → bucket ≠ [].
Proof.
  unfold buildPatternMap.
  assert (∀ l (m : gmap string (list string)),
            (∀ k b, m !! k = Some b → b ≠ []) →
            ∀ k b,
              foldl (λ patternMap word,
                       foldl (λ patternMap i,
                                pushTo (substitute word i "_") word patternMap)
                             patternMap (seq 0 (String.length word))) m l !! k
              = Some b → b ≠ []) as Hgen.
  { induction l as [|word l IH]; intros m Hm; [done|].
    cbn [foldl]. apply IH. clear IH.
    generalize (seq 0 (String.length word)). intros positions.
    revert m Hm. induction positions as [|i positions IHp]; intros m Hm; [done|].
    cbn [foldl]. apply IHp. by apply pushTo_no_empty. }
  apply Hgen. intros k b. by rewrite lookup_empty.
Qed.

(** X12.  The pattern index has no empty bucket; the bucket of a pattern
    holds exactly the words of the list that give the pattern when one of
    their positions is masked, and every such word has the length of the
    pattern. *)
Theorem patternMap_buckets wordList p bucket :
  buildPatternMap wordList !! p = Some bucket →
  bucket ≠ []
  ∧ ∀ x, x ∈ bucket
         ↔ x ∈ wordList
           ∧ String.length x = String.length p
           ∧ ∃ i, i < String.length x ∧ substitute x i "_" = p.
Proof.
  intros Hp. split; [by eapply buildPatternMap_no_empty|].
  intros x. pose proof (buildPatternMap_lookup wordList p x) as Hx.
  rewrite Hp in Hx. simpl in Hx. rewrite Hx. split.
  - intros (Hin & i & Hi & Hs). split; [done|]. split; [|eauto].
    by rewrite <-Hs, substitute_length.
  - intros (Hin & _ & Hi). done.
Qed.

Lemma patternMap_buckets_witness :
  ["CORK"; "FORK"] ≠ []
  ∧ ∀ x, x ∈ ["CORK"; "FORK"]
         ↔ x ∈ fixtureWords
           ∧ String.length x = String.length "_ORK"
           ∧ ∃ i, i < String.length x ∧ substitute x i "_" = "_ORK".
Proof. apply (patternMap_buckets fixtureWords "_ORK"). vm_compute. reflexivity. Defined.

Lemma bucket_fold_NoDup word (bucket : list string) : ∀ acc,
  NoDup acc →
  NoDup (foldl (λ neighborSet neighbor,
                  if decide (neighbor ≠ word) then setAdd neighbor neighborSet
                  else neighborSet) acc bucket).
Proof.
  induction bucket as [|b bucket IH]; intros acc Hacc; [done|].
  cbn [foldl]. apply IH. destruct (decide _); [by apply setAdd_NoDup|done].
Qed.

Lemma collectNeighbors_NoDup patternMap word :
  NoDup (collectNeighbors patternMap word).
Proof.
  unfold collectNeighbors.
  assert (∀ positions acc,
            NoDup acc →
            NoDup (foldl (λ neighborSet i,
                     foldl (λ neighborSet neighbor,
                              if decide (neighbor ≠ word)
                              then setAdd neighbor neighborSet
                              else neighborSet)
                           neighborSet
                           (default [] (patternMap !! substitute word i "_")))
                   acc positions)) as Hgen.
  { induction positions as [|i positions IH]; intros acc Hacc; [done|].
    cbn [foldl]. apply IH. by apply bucket_fold_NoDup. }
  apply Hgen. constructor.
Qed.

(** X13.  The keys of the built graph are the words of the list; the
    neighbour list of a word has no duplicate, does not hold the word
    itself, and holds only words of the list that have the word's
    length. *)
Theorem buildGraph_structure wordList :
  dom (buildGraph wordList) = list_to_set wordList
  ∧ ∀ w ns, buildGraph wordList !! w = Some ns →
            NoDup ns ∧ (w ∉ ns)
            ∧ ∀ v, v ∈ ns → v ∈ wordList
                            ∧ String.length v = String.length w.
Proof.
  split.
  - apply set_eq. intros w. rewrite elem_of_dom, buildGraph_lookup.
    rewrite elem_of_list_to_set. destruct (decide (w ∈ wordList)).
    + split; [done|]. intros _. by eexists.
    + split; [by intros [? ?]|done].
  - intros w ns Hw.
    assert (∀ v, v ∈ ns ↔ edge (buildGraph wordList) w v) as Hedge.
    { intros v. unfold edge, neighborsOf. by rewrite Hw. }
    rewrite buildGraph_lookup in Hw. destruct (decide _); [|done].
    injection Hw as <-. split_and!.
    + apply collectNeighbors_NoDup.
    + intros Hin. apply Hedge, buildGraph_edge in Hin. naive_solver.
    + intros v Hin. apply Hedge, buildGraph_edge in Hin
        as (_ & Hv & _ & i & j & Hi & Hj & Heq).
      split; [done|].
      rewrite <-(substitute_length v j "_"), Heq by done.
      by apply substitute_length.
Qed.

Lemma groupStep_numbered g s word s' :
  groupStep g (Some s) word = Some s' → numbered s → numbered s'.
Proof.
  unfold groupStep. cbn [mbind option_bind].
  case_bool_decide; [by intros [= <-]|].
  destruct (group_loop _ _ _ _ _) as [[V' G']|] eqn:Hloop; [|done].
  cbn [mbind option_bind].
  apply group_loop_spec in Hloop as (new & -> & _).
  cbn [app]. rewrite decide_True by (simpl; lia).
  intros [= <-] [Hkeys Hne]. split; simpl.
  - intros k. destruct (decide (groupId s = k)) as [<-|Hk].
    + rewrite lookup_insert_eq. split; [lia|by eexists].
    + rewrite lookup_insert_ne by done. rewrite Hkeys. lia.
  - intros k grp. destruct (decide (groupId s = k)) as [<-|Hk].
    + rewrite lookup_insert_eq. by intros [= <-].
    + rewrite lookup_insert_ne by done. apply Hne.
Qed.

Lemma groupStep_fold_numbered g l : ∀ s s',
  foldl (groupStep g) (Some s) l = Some s' → numbered s → numbered s'.
Proof.
  induction l as [|word l IH]; intros s s'; cbn [foldl].
  - by intros [= <-].
  - destruct (groupStep g (Some s) word) as [s1|] eqn:Hs1.
    + intros Hs' Hn. eapply IH; [exact Hs'|]. by eapply groupStep_numbered.
    + intros Hs'. exfalso. clear -Hs'.
      induction l as [|w l IHl]; [done|]. by apply IHl.
Qed.

(** X14.  The groups of any graph are numbered [0, 1, ...] without a gap,
    and no group is empty. *)
Theorem groups_numbered wordList graph groups :
  findGroups wordList graph = Some groups →
  ∃ count,
    (∀ k, is_Some (groups !! k) ↔ k < count)
    ∧ ∀ k grp, groups !! k = Some grp → grp ≠ [].
Proof.
  unfold findGroups, findGroupsFrom.
  destruct (foldl _ _ _) as [s|] eqn:Hs; [|done].
  intros [= <-]. exists (groupId s).
  eapply groupStep_fold_numbered; [exact Hs|].
  split; simpl.
  - intros k. rewrite lookup_empty. split; [by intros [? ?]|lia].
  - intros k grp. by rewrite lookup_empty.
Qed.

Lemma groups_numbered_witness :
  ∃ count,
    (∀ k, is_Some (groups fixtureData !! k) ↔ k < count)
    ∧ ∀ k grp, groups fixtureData !! k = Some grp → grp ≠ [].
Proof.
  apply (groups_numbered fixtureWords (buildGraph fixtureWords)).
  vm_compute. reflexivity.
Defined.

Lemma lengthsToProcess_range n : n ∈ lengthsToProcess ↔ 2 ≤ n ≤ 10.
Proof.
  unfold lengthsToProcess. split.
  - intros Hn. repeat (apply elem_of_cons in Hn as [->|Hn]; [lia|]).
    by apply elem_of_nil in Hn.
  - intros Hn. apply (bool_decide_unpack _).
    do 11 (destruct n as [|n]; [try lia; vm_compute; exact I|]). lia.
Qed.

Lemma artifact_range lines n d :
  preprocessDictionary lines n = Valid d → 2 ≤ n ≤ 10.
Proof.
  unfold preprocessDictionary. case_bool_decide as Hin; [|done].
  intros _. by apply lengthsToProcess_range.
Qed.

(** X15.  The builder writes an artifact for a length exactly when the
    length is between 2 and 10 and some parsed word has it. *)
Theorem artifact_written_iff lines n :
  (∃ d, preprocessDictionary lines n = Valid d)
  ↔ 2 ≤ n ≤ 10 ∧ ∃ w, w ∈ parseWords lines ∧ String.length w = n.
Proof.
  pose proof (lengthsToProcess_range n) as Hrange.
  unfold preprocessDictionary. rewrite groupByLength_bucket.
  case_bool_decide as Hin.
  - apply Hrange in Hin.
    destruct (filter _ (parseWords lines)) as [|w0 l] eqn:Hf.
    + split; [by intros [? ?]|]. intros (_ & w & Hw & Hl).
      assert (w ∈ filter (λ w, String.length w = n) (parseWords lines)) as Hwf
        by (by apply list_elem_of_filter).
      rewrite Hf in Hwf. by apply elem_of_nil in Hwf.
    + destruct (buildArtifact_total (w0 :: l)) as (d & -> & _).
      split; [|by eexists]. intros _. split; [done|]. exists w0.
      assert (w0 ∈ filter (λ w, String.length w = n) (parseWords lines)) as Hwf
        by (rewrite Hf; left).
      apply list_elem_of_filter in Hwf. tauto.
  - split; [by intros [? ?]|]. intros [Hn _]. by apply Hrange in Hn.
Qed.

(** ** The route on the builder's artifacts *)

Lemma isPath_distinct adj s e (p : list string) :
  isPath adj s e p → s ≠ e → 2 ≤ length p.
Proof.
  intros (Hh & Hl & _) Hne. destruct p as [|a [|b p]]; simpl in *; [done| |lia].
  congruence.
Qed.

Lemma buildGraph_path_letters wordList s e p :
  Forall (λ w, testAZ w = true) wordList → s ∈ wordList →
  isPath (edge (buildGraph wordList)) s e p →
  Forall (λ w, allUpperLetters w = true) p.
Proof.
  intros HAZ Hs Hp%isPath_ladder. rewrite Forall_forall in HAZ.
  induction Hp as [|p u v Hp IH Huv].
  - constructor; [|done]. auto using testAZ_letters.
  - apply Forall_app. split; [done|]. constructor; [|done].
    apply buildGraph_words in Huv. auto using testAZ_letters.
Qed.

Lemma adjacentPairs_impl (adj adj' : string → string → Prop) P p :
  Forall P p → (∀ u v, P u → P v → adj u v → adj' u v) →
  adjacentPairs adj p → adjacentPairs adj' p.
Proof.
  intros HP Himp Hp i u v Hu Hv. rewrite Forall_forall in HP.
  apply Himp; [eapply HP, list_elem_of_lookup_2, Hu
              |eapply HP, list_elem_of_lookup_2, Hv|by eapply Hp].
Qed.

(** X16.  On a store written by the builder, a query for two different
    words of the artifact is answered with a path exactly when the graph
    connects them, and with the not-connected failure otherwise; the
    no-path-found failure does not occur.  The path is a shortest path of
    the graph and [validateWordLadder] accepts it. *)
Theorem builder_store_query lines world sw ew d :
  let fs := preprocessDictionary lines in
  let start := trim (toUpperCase sw) in
  let end_ := trim (toUpperCase ew) in
  dictionaryCache world !! String.length start = None →
  fs (String.length start) = Valid d →
  start ∈ words d → end_ ∈ words d → start ≠ end_ →
  (connected (edge (graph d)) start end_ →
   ∃ p, (POST fs (query sw ew) world).1 = Success p (length p)
        ∧ isPath (edge (graph d)) start end_ p
        ∧ (∀ q, isPath (edge (graph d)) start end_ q → length p ≤ length q)
        ∧ validateWordLadder p = true)
  ∧ (¬ connected (edge (graph d)) start end_ →
     (POST fs (query sw ew) world).1 = Failure NotConnected 400).
Proof.
  intros fs start end_ Hcache Hfs Hs He Hne.
  destruct (preprocessDictionary_artifact lines _ d Hfs)
    as (HAZ & Hlens & Hg & Hgr & Hkeys).
  destruct (preprocessDictionary_graph lines _ d start end_ Hfs Hs He)
    as [_ Hgroup].
  rewrite Forall_forall in Hlens.
  assert (String.length start = String.length end_) as Hlen.
  { by rewrite (Hlens end_ He). }
  assert (2 ≤ String.length start ≤ 15) as Hrange.
  { pose proof (artifact_range lines _ d Hfs). lia. }
  assert (stored fs world (String.length start) = Some d) as Hstored.
  { unfold stored. rewrite Hcache. fold fs. by rewrite Hfs. }
  destruct (POST_loaded fs sw ew world d) as [Hans _]; auto.
  fold start end_ in Hans. rewrite Hans. unfold answer.
  pose proof (normalised_upper sw) as Hus. pose proof (normalised_upper ew) as Hue.
  fold start in Hus. fold end_ in Hue.
  split.
  - intros Hconn. rewrite (proj2 Hgroup Hconn).
    destruct Hconn as [q0 Hq0].
    destruct (findShortestPath_complete start end_ (graph d) q0)
      as (p & Hp & Hpath & _); rewrite ?Hus, ?Hue; auto.
    rewrite Hus, Hue in Hpath. rewrite Hp.
    pose proof (isPath_distinct _ _ _ _ Hpath Hne) as Hlp.
    rewrite decide_False by lia.
    exists p. split; [done|]. split; [done|]. split.
    + intros q Hq.
      destruct (findShortestPath_complete start end_ (graph d) q)
        as (p2 & Hp2 & _ & Hle); rewrite ?Hus, ?Hue; auto.
      by simplify_eq.
    + apply validateWordLadder_pairs. split; [done|].
      rewrite Hg in Hpath.
      pose proof (buildGraph_path_letters _ _ _ _ HAZ Hs Hpath) as Hletters.
      destruct Hpath as (_ & _ & Hpairs).
      eapply adjacentPairs_impl; [exact Hletters| |exact Hpairs].
      intros u v Hu Hv Huv. apply differByOne_letters; [done|done|].
      apply buildGraph_adjacent in Huv; [tauto|done].
  - intros Hno.
    destruct (areInSameGroup start end_ (groups d)) eqn:Hgrp; [|done].
    destruct Hno. by apply Hgroup.
Qed.

Lemma fixture_connected :
  connected (edge (graph fixtureData)) "CORE" "PORT".
Proof.
  exists ["CORE"; "CORK"; "FORK"; "FORT"; "PORT"].
  apply ladder_isPath.
  apply (ladder_step _ _ ["CORE"; "CORK"; "FORK"; "FORT"] "FORT" "PORT");
    [|unfold edge; apply (bool_decide_unpack _); vm_compute; exact I].
  apply (ladder_step _ _ ["CORE"; "CORK"; "FORK"] "FORK" "FORT");
    [|unfold edge; apply (bool_decide_unpack _); vm_compute; exact I].
  apply (ladder_step _ _ ["CORE"; "CORK"] "CORK" "FORK");
    [|unfold edge; apply (bool_decide_unpack _); vm_compute; exact I].
  apply (ladder_step _ _ ["CORE"] "CORE" "CORK");
    [|unfold edge; apply (bool_decide_unpack _); vm_compute; exact I].
  constructor.
Qed.

Lemma builder_store_query_witness :
  ∃ p, (POST (preprocessDictionary fixtureLines) (query "core" "port") emptyWorld).1
       = Success p (length p)
       ∧ isPath (edge (graph fixtureData))
           (trim (toUpperCase "core")) (trim (toUpperCase "port")) p
       ∧ (∀ q, isPath (edge (graph fixtureData))
                 (trim (toUpperCase "core")) (trim (toUpperCase "port")) q →
               length p ≤ length q)
       ∧ validateWordLadder p = true.
Proof.
  apply (builder_store_query fixtureLines emptyWorld "core" "port" fixtureData).
  - reflexivity.
  - vm_compute. reflexivity.
  - apply (bool_decide_unpack _). vm_compute. exact I.
  - apply (bool_decide_unpack _). vm_compute. exact I.
  - discriminate.
  - exact fixture_connected.
Defined.

(** X17.  The route accepts words of 11 to 15 letters, but the builder
    writes no artifact for these lengths: with nothing cached, such a query
    on the builder's store is always answered with the 404
    dictionary-not-found failure. *)
Theorem long_words_unsupported lines world sw ew :
  let start := trim (toUpperCase sw) in
  let end_ := trim (toUpperCase ew) in
  String.length start = String.length end_ →
  11 ≤ String.length start ≤ 15 →
  dictionaryCache world !! String.length start = None →
  (POST (preprocessDictionary lines) (query sw ew) world).1
  = Failure (DictionaryNotFound (String.length start)) 404.
Proof.
  intros start end_ Hlen Hrange Hcache.
  assert (preprocessDictionary lines (String.length start) = NoFile) as Hno.
  { unfold preprocessDictionary. rewrite bool_decide_eq_false_2; [done|].
    rewrite lengthsToProcess_range. lia. }
  assert (falsy (Some sw) = false) as Hfs.
  { destruct sw; [|done]. change (String.length start) with 0 in Hrange. lia. }
  assert (falsy (Some ew) = false) as Hfe.
  { destruct ew; [|done]. change (String.length end_) with 0 in Hlen. lia. }
  unfold POST, query. cbn [startWord endWord from_option id].
  rewrite Hfs, Hfe. cbn [orb]. fold start end_.
  rewrite decide_False by (intros H; by apply H).
  rewrite decide_False by lia.
  unfold mbind, M_bind, bind.
  pose proof (loadDictionary_result (preprocessDictionary lines)
                (String.length start) world) as Hload.
  unfold stored in Hload. rewrite Hcache, Hno in Hload.
  destruct (loadDictionary _ _ world) as [r w']. simpl in Hload. by subst r.
Qed.

Lemma long_words_unsupported_witness :
  (POST (preprocessDictionary ["header"; "ABRACADABRA"; "ABRACADABRO"])
        (query "abracadabra" "abracadabro") emptyWorld).1
  = Failure (DictionaryNotFound 11) 404.
Proof.
  apply (long_words_unsupported ["header"; "ABRACADABRA"; "ABRACADABRO"]
           emptyWorld "abracadabra" "abracadabro").
  - reflexivity.
  - vm_compute. lia.
  - reflexivity.
Defined.

(** ** The puzzle board and the manual editor *)

Import Puzzle.

Lemma adjacentPairs_snoc adj (l : list string) b :
  adjacentPairs adj (l ++ [b])
  ↔ adjacentPairs adj l ∧ ∀ final, last l = Some final → adj final b.
Proof.
  induction l as [|a l IH].
  - split; [|intros _; apply adjacentPairs_short; simpl; lia].
    intros _. split; [apply adjacentPairs_short; simpl; lia|done].
  - destruct l as [|a' l].
    + change ([a] ++ [b]) with [a; b]. rewrite adjacentPairs_cons. split.
      * intros [Hab _]. split; [apply adjacentPairs_short; simpl; lia|].
        by intros ? [= <-].
      * intros [_ H]. split; [by apply H|apply adjacentPairs_short; simpl; lia].
    + change ((a :: a' :: l) ++ [b]) with (a :: a' :: (l ++ [b])).
      rewrite !adjacentPairs_cons.
      change (a' :: l ++ [b]) with ((a' :: l) ++ [b]). rewrite IH.
      change (last (a :: a' :: l)) with (last (a' :: l)). tauto.
Qed.

Lemma adjacentPairs_frame adj top bottom first final (l : list string) :
  head l = Some first → last l = Some final →
  adjacentPairs adj (top :: l ++ [bottom])
  ↔ adj top first ∧ adjacentPairs adj l ∧ adj final bottom.
Proof.
  intros Hh Hl. destruct l as [|a l]; [done|]. simpl in Hh. simplify_eq.
  change (top :: (first :: l) ++ [bottom])
    with (top :: first :: (l ++ [bottom])).
  rewrite adjacentPairs_cons.
  change (first :: l ++ [bottom]) with ((first :: l) ++ [bottom]).
  rewrite adjacentPairs_snoc. split.
  - intros (? & ? & H). eauto.
  - intros (? & ? & ?). split_and!; [done..|]. intros f Hf. congruence.
Qed.

Lemma isSorted_pairs game :
  isSorted game = true
  ↔ adjacentPairs (λ u v, differByOne u v = true) (current <$> rows game).
Proof.
  unfold isSorted. rewrite forallb_forall. split.
  - intros H i u v Hu Hv. rewrite list_lookup_fmap in Hu, Hv.
    destruct (rows game !! i) as [r|] eqn:Hr; [|done].
    destruct (rows game !! S i) as [r'|] eqn:Hr'; [|done].
    simpl in Hu, Hv. simplify_eq.
    assert (In (i, r) (imap pair (rows game))) as Hin.
    { apply list_elem_of_In, elem_of_lookup_imap. eauto. }
    specialize (H _ Hin). simpl in H. rewrite Nat.add_1_r, Hr' in H.
    apply lookup_lt_Some in Hr'.
    rewrite bool_decide_eq_false_2 in H by lia. done.
  - intros H [i r] Hin%list_elem_of_In%elem_of_lookup_imap.
    destruct Hin as (i' & r' & [= <- <-] & Hr).
    destruct (decide (i = length (rows game) - 1)) as [Hi|Hi].
    + by rewrite bool_decide_eq_true_2.
    + rewrite bool_decide_eq_false_2 by done. cbn [orb].
      apply lookup_lt_Some in Hr as Hlt.
      destruct (lookup_lt_is_Some_2 (rows game) (i + 1)) as [r' Hr']; [lia|].
      rewrite Hr'. apply (H i); rewrite list_lookup_fmap; [by rewrite Hr|].
      rewrite <-Nat.add_1_r, Hr'. done.
Qed.

Lemma column_valid game r rs final :
  rows game = r :: rs → last (r :: rs) = Some final →
  validateWordLadder ((currentEdgeWords game).1
                      :: (current <$> rows game)
                      ++ [(currentEdgeWords game).2]) = true
  ↔ differByOne (currentEdgeWords game).1 (current r) = true
    ∧ isSorted game = true
    ∧ differByOne (currentEdgeWords game).2 (current final) = true.
Proof.
  intros Hrows Hlast. rewrite validateWordLadder_pairs, isSorted_pairs.
  rewrite (adjacentPairs_frame _ _ _ (current r) (current final));
    [|by rewrite Hrows|by rewrite Hrows, fmap_last, Hlast].
  rewrite (differByOne_sym (current final)).
  split; [tauto|]. intros H. split; [|tauto].
  rewrite Hrows. simpl. rewrite length_app. simpl. lia.
Qed.

Lemma gameStatus_solved_if game :
  rows game ≠ [] → isHalfSolved game = true → edgesKnown game = true →
  validateWordLadder ((currentEdgeWords game).1
                      :: (current <$> rows game)
                      ++ [(currentEdgeWords game).2]) = true →
  gameStatus (Some game) = Some Solved.
Proof.
  intros Hne Hhalf Hedges Hvalid.
  destruct (rows game) as [|r rs] eqn:Hrows; [done|].
  destruct (last (r :: rs)) as [final|] eqn:Hlast;
    [|by apply last_None in Hlast].
  rewrite <-Hrows in Hvalid.
  destruct (proj1 (column_valid game r rs final Hrows Hlast) Hvalid)
    as (H1 & Hs & H2).
  unfold gameStatus. rewrite Hhalf, Hs, Hedges. cbn [negb].
  rewrite Hrows. cbn [head]. by rewrite Hlast, H1, H2.
Qed.

(** X18.  The board is reported solved exactly when it has a row, every row
    shows its word (up to case), both edge rows show one of the edge words,
    and [validateWordLadder] accepts the column read from the top edge row
    through the rows to the bottom edge row. *)
Theorem gameStatus_solved_iff game :
  gameStatus (Some game) = Some Solved
  ↔ rows game ≠ []
    ∧ isHalfSolved game = true
    ∧ edgesKnown game = true
    ∧ validateWordLadder ((currentEdgeWords game).1
                          :: (current <$> rows game)
                          ++ [(currentEdgeWords game).2]) = true.
Proof.
  split; [|intros (? & ? & ? & ?); by apply gameStatus_solved_if].
  unfold gameStatus.
  destruct (isHalfSolved game) eqn:Hhalf; cbn [negb]; [|done].
  destruct (isSorted game) eqn:Hs; cbn [negb]; [|done].
  destruct (edgesKnown game) eqn:He; cbn [negb]; [|done].
  destruct (rows game) as [|r rs] eqn:Hrows; [done|]. cbn [head].
  destruct (last (r :: rs)) as [final|] eqn:Hlast; [|done].
  destruct (differByOne _ (current r)) eqn:H1; [|done].
  destruct (differByOne _ (current final)) eqn:H2; [|done].
  intros _. split_and!; try done. rewrite <-Hrows.
  by apply (column_valid game r rs final Hrows Hlast).
Qed.

(** X19.  On a board without rows the status is never error, unsorted or
    solved: it is sorted while an edge row shows an unknown word, and the
    computation raises once both edge rows show an edge word. *)
Theorem gameStatus_no_rows game :
  rows game = [] →
  gameStatus (Some game) = if edgesKnown game then None else Some Sorted.
Proof.
  intros Hrows. unfold gameStatus, isHalfSolved, isSorted. rewrite Hrows.
  simpl. by destruct (edgesKnown game).
Qed.

Lemma gameStatus_no_rows_witness :
  gameStatus (Some {| title := "T"; author := None; rows := [];
                      edgeWords := ("CAT", "COT");
                      currentEdgeWords := ("cat", "cot");
                      edgeHint := "" |}) = None.
Proof.
  apply (gameStatus_no_rows {| title := "T"; author := None; rows := [];
                               edgeWords := ("CAT", "COT");
                               currentEdgeWords := ("cat", "cot");
                               edgeHint := "" |}).
  reflexivity.
Defined.

(** X20.  Moving a row from an existing position only permutes the rows,
    and when the target position exists the moved row ends up there. *)
Theorem reorder_permutation {A} (undefined : A) fromIndex toIndex
    (words : list A) :
  fromIndex < length words →
  reorder undefined fromIndex toIndex words ≡ₚ words
  ∧ (toIndex < length words →
     reorder undefined fromIndex toIndex words !! toIndex
     = words !! fromIndex).
Proof.
  intros Hlt. unfold reorder.
  destruct (lookup_lt_is_Some_2 words fromIndex Hlt) as [x Hx].
  rewrite Hx. cbn [default]. split.
  - rewrite <-Permutation_middle, take_drop. symmetry.
    by apply delete_Permutation.
  - intros Hto. apply list_lookup_middle.
    rewrite length_take_le; [done|].
    rewrite length_delete by eauto. lia.
Qed.

Lemma reorder_permutation_witness :
  reorder "" 2 0 ["COT"; "COG"; "CAT"] ≡ₚ ["COT"; "COG"; "CAT"]
  ∧ (0 < 3 → reorder "" 2 0 ["COT"; "COG"; "CAT"] !! 0 = Some "CAT").
Proof.
  apply (reorder_permutation "" 2 0 ["COT"; "COG"; "CAT"]).
  simpl. lia.
Defined.

(** X21.  Moving a row from a position past the end removes nothing and
    inserts the [undefined] value: the list grows by one entry. *)
Theorem reorder_out_of_range {A} (undefined : A) fromIndex toIndex
    (words : list A) :
  length words ≤ fromIndex →
  reorder undefined fromIndex toIndex words
  = take toIndex words ++ undefined :: drop toIndex words
  ∧ length (reorder undefined fromIndex toIndex words) = S (length words).
Proof.
  intros Hge. unfold reorder.
  rewrite lookup_ge_None_2 by done. cbn [default].
  assert (delete fromIndex words = words) as ->.
  { rewrite delete_take_drop, take_ge, drop_ge by lia. apply app_nil_r. }
  split; [done|].
  rewrite length_app. cbn [length]. rewrite Nat.add_succ_r, <-length_app.
  by rewrite take_drop.
Qed.

Lemma reorder_out_of_range_witness :
  reorder "" 5 1 ["COT"; "COG"] = ["COT"; ""; "COG"]
  ∧ length (reorder "" 5 1 ["COT"; "COG"]) = 3.
Proof.
  apply (reorder_out_of_range "" 5 1 ["COT"; "COG"]). simpl. lia.
Defined.

Lemma zip_with_correct (l : list string) (k : list (string * string)) :
  length l ≤ length k →
  infoCorrect <$> zip_with (λ word m, {| infoCorrect := word;
                                         infoHint := m.2 |}) l k = l.
Proof.
  revert k. induction l as [|x l IH]; intros [|y k] Hlen; simpl in *;
    [done|done|lia|]. f_equal. apply IH. lia.
Qed.

Lemma emptyString_false s : emptyString s = false ↔ s ≠ "".
Proof. by destruct s. Qed.

Lemma edgesKnown_same game :
  currentEdgeWords game = edgeWords game → edgesKnown game = true.
Proof.
  intros H. unfold edgesKnown. rewrite H.
  destruct (edgeWords game) as [a b]. cbn [fst snd forallb existsb].
  rewrite (bool_decide_eq_true_2 (toUpperCase a = toUpperCase a)) by done.
  rewrite (bool_decide_eq_true_2 (toUpperCase b = toUpperCase b)) by done.
  cbn [orb andb]. by rewrite orb_true_r.
Qed.

Lemma isHalfSolved_filledIn info : isHalfSolved (filledIn info) = true.
Proof.
  unfold isHalfSolved, filledIn. simpl.
  induction (infoWords info) as [|w ws IH]; simpl; [done|].
  by rewrite bool_decide_eq_true_2.
Qed.

Lemma current_filledIn info :
  current <$> rows (filledIn info) = infoCorrect <$> infoWords info.
Proof.
  unfold filledIn. simpl. rewrite <-list_fmap_compose. done.
Qed.

(** What an accepted editor state looks like, in terms of the local
    [allMiddleWords] of [handleCreate]. *)
Lemma handleCreate_inr e info :
  handleCreate e = inr info →
  let allMiddleWords :=
    filter (λ w, emptyString w = false)
           ((λ m, toUpperCase m.1) <$> editMiddleWords e) in
  trim (editTitle e) ≠ ""
  ∧ allMiddleWords ≠ []
  ∧ String.length (editEdgeWords e).1 = String.length (editEdgeWords e).2
  ∧ Forall (λ w, String.length w = String.length (editEdgeWords e).1)
           allMiddleWords
  ∧ forallb (λ '(w, m), negb (emptyString (trim m.2)))
            (zip allMiddleWords (editMiddleWords e)) = true
  ∧ validateWordLadder (toUpperCase (editEdgeWords e).1
                        :: allMiddleWords
                        ++ [toUpperCase (editEdgeWords e).2]) = true
  ∧ info = {| infoTitle := trim (editTitle e);
              infoAuthor := if emptyString (trim (editAuthor e)) then None
                            else Some (trim (editAuthor e));
              infoWords :=
                zip_with (λ word m, {| infoCorrect := word;
                                       infoHint := m.2 |})
                         allMiddleWords (editMiddleWords e);
              infoEdgeWords := (toUpperCase (editEdgeWords e).1,
                                toUpperCase (editEdgeWords e).2);
              infoEdgeHint := editEdgeHint e |}.
Proof.
  intros H amw. unfold handleCreate in H. fold amw in H.
  destruct (emptyString (trim (editTitle e))) eqn:Ht; [done|].
  destruct (emptyString (editEdgeWords e).1 || emptyString (editEdgeWords e).2);
    [done|].
  destruct (decide (String.length (editEdgeWords e).1
                    ≠ String.length (editEdgeWords e).2)) as [|Hlen]; [done|].
  destruct (decide (length amw = 0)) as [|Hne]; [done|].
  destruct (forallb (λ w, bool_decide (String.length w
                                       = String.length (editEdgeWords e).1))
                    amw) eqn:Hall; cbn [negb orb] in H; [|done].
  destruct (negb (bool_decide _)); [done|].
  destruct (forallb _ (zip amw (editMiddleWords e))) eqn:Hhints;
    cbn [negb] in H; [|done].
  destruct (emptyString (trim (editEdgeHint e))); [done|].
  destruct (validateWordLadder _) eqn:Hvalid; cbn [negb] in H; [|done].
  simplify_eq. split_and!; try done.
  - by apply emptyString_false.
  - intros Hnil. by rewrite Hnil in Hne.
  - by destruct (decide (String.length (editEdgeWords e).1
                         = String.length (editEdgeWords e).2)).
  - apply Forall_forall. intros w Hw%list_elem_of_In.
    rewrite forallb_forall in Hall. apply Hall in Hw.
    by apply bool_decide_eq_true in Hw.
Qed.

Lemma allMiddleWords_length (mws : list (string * string)) :
  length (filter (λ w, emptyString w = false)
                 ((λ m, toUpperCase m.1) <$> mws)) ≤ length mws.
Proof.
  etrans; [apply length_filter|]. by rewrite length_fmap.
Qed.

(** X22.  A puzzle the manual editor hands on has a title, at least one
    row, upper-case words of one length, and its column from the top edge
    word through the rows to the bottom edge word is accepted by
    [validateWordLadder]; the board that shows every word in this order is
    reported solved by [gameStatus]. *)
Theorem handleCreate_accepts e info :
  handleCreate e = inr info →
  let column :=
    (infoEdgeWords info).1 :: (infoCorrect <$> infoWords info)
    ++ [(infoEdgeWords info).2] in
  infoTitle info ≠ ""
  ∧ infoWords info ≠ []
  ∧ Forall (λ w, String.length w = String.length (infoEdgeWords info).1
                 ∧ toUpperCase w = w ∧ w ≠ "") column
  ∧ validateWordLadder column = true
  ∧ gameStatus (Some (filledIn info)) = Some Solved.
Proof.
  intros H. apply handleCreate_inr in H.
  destruct H as (Ht & Hne & Hlen & Hall & _ & Hvalid & ->).
  set (amw := filter _ _) in *. cbn [infoEdgeWords infoWords infoTitle fst snd].
  pose proof (allMiddleWords_length (editMiddleWords e)) as Hle. fold amw in Hle.
  rewrite zip_with_correct by done.
  assert (zip_with (λ word m, {| infoCorrect := word; infoHint := m.2 |})
                   amw (editMiddleWords e) ≠ []) as Hrows.
  { intros Hnil. apply (f_equal (fmap infoCorrect)) in Hnil.
    rewrite zip_with_correct in Hnil by done. done. }
  split_and!; try done.
  - assert (String.length (toUpperCase (editEdgeWords e).1) ≠ 0) as Hpos.
    { destruct amw as [|w amw'] eqn:Hamw; [done|].
      apply Forall_cons in Hall as [Hw _]. rewrite toUpperCase_length, <-Hw.
      assert (w ∈ amw) as Hin by (rewrite Hamw; left).
      apply list_elem_of_filter in Hin as [Hin _].
      apply emptyString_false in Hin. by destruct w. }
    assert (∀ w, String.length w = String.length (toUpperCase (editEdgeWords e).1)
                 → w ≠ "") as Hnonempty.
    { intros w Hw ->. simpl in Hw. lia. }
    constructor.
    { split_and!; [done|apply toUpperCase_idem|by apply Hnonempty]. }
    apply Forall_app. split.
    + apply Forall_forall. intros w Hw.
      rewrite Forall_forall in Hall. pose proof (Hall w Hw) as Hlw.
      rewrite toUpperCase_length.
      split_and!; [done| |apply Hnonempty; by rewrite toUpperCase_length].
      apply list_elem_of_filter in Hw as [_ Hw].
      apply list_elem_of_fmap in Hw as (m & -> & _). apply toUpperCase_idem.
    + constructor; [|done].
      split_and!; [by rewrite !toUpperCase_length|apply toUpperCase_idem|].
      apply Hnonempty. by rewrite !toUpperCase_length.
  - apply gameStatus_solved_if.
    + unfold filledIn. cbn [rows infoWords]. intros Hnil.
      by apply fmap_nil_inv in Hnil.
    + apply isHalfSolved_filledIn.
    + by apply edgesKnown_same.
    + rewrite current_filledIn. cbn [filledIn currentEdgeWords infoEdgeWords
                                     infoWords fst snd].
      by rewrite zip_with_correct.
Qed.

Lemma handleCreate_accepts_witness :
  ∃ info, handleCreate fixtureEditor = inr info
          ∧ infoCorrect <$> infoWords info = ["COT"; "COG"]
          ∧ gameStatus (Some (filledIn info)) = Some Solved.
Proof.
  eexists. split; [vm_compute; reflexivity|]. split; [reflexivity|].
  apply (handleCreate_accepts fixtureEditor). vm_compute. reflexivity.
Defined.

(** X23.  The word in row [i] of a puzzle the manual editor hands on is the
    [i]-th non-empty word of the editor, but its hint is the hint of the
    editor's row [i], which is not blank: after an editor row without a
    word, hints belong to other rows than their words. *)
Theorem handleCreate_hints e info i w :
  handleCreate e = inr info →
  infoWords info !! i = Some w →
  filter (λ x, emptyString x = false)
         ((λ m, toUpperCase m.1) <$> editMiddleWords e) !! i
  = Some (infoCorrect w)
  ∧ ∃ m, editMiddleWords e !! i = Some m
         ∧ infoHint w = m.2 ∧ trim m.2 ≠ "".
Proof.
  intros H Hw. apply handleCreate_inr in H.
  destruct H as (_ & _ & _ & _ & Hhints & _ & ->).
  set (amw := filter _ _) in *. cbn [infoWords] in Hw.
  rewrite lookup_zip_with in Hw.
  destruct (amw !! i) as [x|] eqn:Hx; [|done].
  destruct (editMiddleWords e !! i) as [m|] eqn:Hm; [|done].
  simpl in Hw. simplify_eq. split; [done|].
  exists m. split_and!; [done..|].
  rewrite forallb_forall in Hhints.
  assert (In (x, m) (zip amw (editMiddleWords e))) as Hin.
  { apply list_elem_of_In. by eapply (elem_of_lookup_zip_with_2 pair). }
  apply Hhints in Hin. simpl in Hin.
  apply negb_true_iff, emptyString_false in Hin. done.
Qed.

Lemma handleCreate_hints_witness :
  ∃ info w, handleCreate fixtureShiftedEditor = inr info
            ∧ infoWords info !! 0 = Some w
            ∧ infoCorrect w = "COT" ∧ infoHint w = "SMALL BED".
Proof.
  eexists _, _. split; [vm_compute; reflexivity|]. split; [reflexivity|].
  destruct (handleCreate_hints fixtureShiftedEditor _ 0 _
              ltac:(vm_compute; reflexivity) ltac:(reflexivity))
    as (_ & m & Hm & Hh & _).
  vm_compute in Hm. simplify_eq. split; [reflexivity|exact Hh].
Defined.
